(** * The note index of claude-jarvis: [index_notes] and [query_notes]

    A shallow embedding of the two "Local RAG" tools of [src/main.py]
    (lines 332-399) and of the module-level variable [vector_store] they
    share.  The langchain collaborators (directory loader, embedding model,
    FAISS store) are taken as parameters: the tools are glue code, and what
    is verified here is the glue -- which collaborator is called when, what
    is written to the shared variable, which message is returned. *)

From Stdlib Require Import String Ascii List Arith Lia DecimalString.
From Stdlib Require Import ZArith Sorted Permutation.
From stdpp Require Import base option gmap strings.
Import ListNotations.
Local Open Scope string_scope.

(** ** Python values *)

(** A Python [str] is modelled as a Rocq [string]; one character of the
    model stands for one character of the Python string, so that slicing
    and [len] count the same units on both sides. *)

(** [s[:n]] *)
Fixpoint str_slice_to (n : nat) (s : string) : string :=
  match n, s with
  | S n', String c s' => String c (str_slice_to n' s')
  | _, _ => EmptyString
  end.

(** [s.replace(old, new)] for one-character [old] and [new]. *)
Fixpoint str_replace (old new : ascii) (s : string) : string :=
  match s with
  | EmptyString => EmptyString
  | String c s' =>
      String (if Ascii.eqb c old then new else c) (str_replace old new s')
  end.

(** The line feed, written ['\n'] in the source. *)
Definition LF : ascii := ascii_of_nat 10.
Definition nl : string := String LF EmptyString.

(** [str(n)] for a non-negative [int], as an f-string renders [len(docs)]. *)
Definition str_of_nat (n : nat) : string :=
  NilEmpty.string_of_uint (Nat.to_uint n).

(** A raised exception: its class name and what [str(e)] gives.  Only
    instances of [Exception] are modelled, the ones an [except Exception]
    clause catches; interpreter exits and keyboard interrupts are not. *)
Record PyException : Type := mkExc { exc_type : string; exc_str : string }.

(** The outcome of evaluating a Python expression or call. *)
Inductive res (A : Type) : Type :=
| Val (a : A)
| Raise (e : PyException).
Arguments Val {A} a.
Arguments Raise {A} e.

(** A langchain [Document]: [page_content] and the [metadata] dict. *)
Record Document : Type := mkDoc {
  page_content : string;
  metadata : gmap string string
}.

(** [d.get(key, default)] *)
Definition dict_get (d : gmap string string) (key dflt : string) : string :=
  default dflt (d !! key).

Section Model.

(** The FAISS store object and the embedding-model object are opaque to the
    tools, which only pass them around.  A store is a value: the tools
    never update one in place, they make a new one and rebind the global. *)
Variables Store Embeddings : Type.

(** ** Collaborators

    The behaviour of the outside world at the time of one tool call. *)
Record World : Type := mkWorld {
  (** The function-level imports of [index_notes] (lines 345-348):
      [None] when they succeed, the exception otherwise. *)
  import_langchain : option PyException;
  (** [os.path.exists(path)] *)
  os_path_exists : string -> bool;
  (** [DirectoryLoader(path, glob=g, loader_cls=TextLoader).load()] *)
  loader_load : string -> string -> res (list Document);
  (** [HuggingFaceEmbeddings(model_name=m)] *)
  HuggingFaceEmbeddings : string -> res Embeddings;
  (** [FAISS.from_documents(docs, embeddings)] *)
  FAISS_from_documents : list Document -> Embeddings -> res Store;
  (** [store.similarity_search(query, k=k)] *)
  similarity_search : Store -> string -> nat -> res (list Document)
}.

(** Calls to collaborators, recorded in the order they are made. *)
Inductive Event : Type :=
| EvImport
| EvExists (path : string)
| EvLoad (path glob : string)
| EvEmbeddings (model_name : string)
| EvFromDocuments (docs : list Document)
| EvSearch (store : Store) (query : string) (k : nat).

(** ** Program state

    [vector_store] is the module global of line 336 ([None] at import
    time); [calls] is the log of collaborator calls made so far. *)
Record Heap : Type := mkHeap {
  vector_store : option Store;
  calls : list Event
}.

Definition initial_heap : Heap :=
  {| vector_store := None; calls := [] |}.

(** ** A monad for Python statements: state and exceptions *)

Definition M (A : Type) : Type := Heap -> res A * Heap.

Definition ret {A} (a : A) : M A := fun h => (Val a, h).

Definition bind {A B} (m : M A) (k : A -> M B) : M B :=
  fun h =>
    match m h with
    | (Val a, h') => k a h'
    | (Raise e, h') => (Raise e, h')
    end.

Definition raise {A} (e : PyException) : M A := fun h => (Raise e, h).

(** [try: body  except Exception as e: handler(e)] *)
Definition try_except {A} (body : M A) (handler : PyException -> M A) : M A :=
  fun h =>
    match body h with
    | (Val a, h') => (Val a, h')
    | (Raise e, h') => handler e h'
    end.

(** Reading and assigning the global. *)
Definition get_vector_store : M (option Store) :=
  fun h => (Val (vector_store h), h).

Definition set_vector_store (v : option Store) : M unit :=
  fun h => (Val tt, {| vector_store := v; calls := calls h |}).

(** A collaborator call: log it, then return or raise as the world says. *)
Definition call {A} (ev : Event) (r : res A) : M A :=
  fun h => (r, {| vector_store := vector_store h; calls := calls h ++ [ev] |}).

Notation "x <- m ;; k" := (bind m (fun x => k))
  (at level 100, m at next level, right associativity).

(** [not docs] for a list. *)
Definition is_empty {A} (l : list A) : bool :=
  match l with [] => true | _ => false end.

(** ** [index_notes] (lines 338-374) *)

Definition md_glob : string := "**/*.md".
Definition txt_glob : string := "**/*.txt".
Definition model_name : string := "all-MiniLM-L6-v2".

Definition msg_dir_not_found (directory_path : string) : string :=
  "Directory not found: " ++ directory_path.
Definition msg_no_files : string := "No .md or .txt files found to index.".
Definition msg_indexed (n : nat) (directory_path : string) : string :=
  "Successfully indexed " ++ str_of_nat n ++ " documents from "
    ++ directory_path ++ ".".
Definition msg_index_failed (e : PyException) : string :=
  "Failed to index notes: " ++ exc_str e.

Definition index_notes (W : World) (directory_path : string) : M string :=
  (* lines 345-348: the imports run before the try block is entered *)
  _ <- call EvImport
         (match import_langchain W with None => Val tt | Some e => Raise e end) ;;
  try_except
    (found <- call (EvExists directory_path)
                (Val (os_path_exists W directory_path)) ;;
     if negb found then ret (msg_dir_not_found directory_path)
     else
       docs <- call (EvLoad directory_path md_glob)
                 (loader_load W directory_path md_glob) ;;
       docs <- (if is_empty docs
                then call (EvLoad directory_path txt_glob)
                       (loader_load W directory_path txt_glob)
                else ret docs) ;;
       if is_empty docs then ret msg_no_files
       else
         embeddings <- call (EvEmbeddings model_name)
                         (HuggingFaceEmbeddings W model_name) ;;
         store <- call (EvFromDocuments docs)
                    (FAISS_from_documents W docs embeddings) ;;
         _ <- set_vector_store (Some store) ;;
         ret (msg_indexed (length docs) directory_path))
    (fun e => ret (msg_index_failed e)).

(** ** [query_notes] (lines 376-399) *)

Definition msg_not_indexed : string :=
  "No notes indexed yet. Please call index_notes(directory_path) first.".
Definition msg_query_failed (e : PyException) : string :=
  "Failed to query notes: " ++ exc_str e.
Definition results_header (query : string) : string :=
  "Results for '" ++ query ++ "':" ++ nl ++ nl.

(** Line 394: [doc.page_content[:500].replace('\n', ' ')]. *)
Definition snippet (doc : Document) : string :=
  str_replace LF " "%char (str_slice_to 500 (page_content doc)).

(** The body of the [for] loop, lines 393-395. *)
Definition append_result (output : string) (doc : Document) : string :=
  let source := dict_get (metadata doc) "source" "Unknown" in
  let content := snippet doc in
  output ++ ("--- Source: " ++ source ++ " ---" ++ nl ++ content ++ "..."
             ++ nl ++ nl).

(** Attribute access on the value of the global, line 389. *)
Definition AttributeError_NoneType : PyException :=
  {| exc_type := "AttributeError";
     exc_str := "'NoneType' object has no attribute 'similarity_search'" |}.

Definition query_notes (W : World) (query : string) : M string :=
  vs <- get_vector_store ;;
  match vs with
  | None => ret msg_not_indexed
  | Some _ =>
      try_except
        (vs <- get_vector_store ;;
         results <-
           match vs with
           | None => raise AttributeError_NoneType
           | Some store =>
               call (EvSearch store query 3) (similarity_search W store query 3)
           end ;;
         ret (fold_left append_result results (results_header query)))
        (fun e => ret (msg_query_failed e))
  end.

(** ** Sessions: the tools called one after another by the host *)

Inductive ToolCall : Type :=
| IndexNotes (directory_path : string)
| QueryNotes (query : string).

Definition run_tool (W : World) (c : ToolCall) : M string :=
  match c with
  | IndexNotes directory_path => index_notes W directory_path
  | QueryNotes query => query_notes W query
  end.

(** Each call meets the world as it is at that moment.  An exception that
    leaves a tool is the host's to deal with; the session goes on. *)
Fixpoint run_session (session : list (World * ToolCall)) (h : Heap)
  : list (res string) * Heap :=
  match session with
  | [] => ([], h)
  | (W, c) :: rest =>
      let '(r, h1) := run_tool W c h in
      let '(rs, h2) := run_session rest h1 in
      (r :: rs, h2)
  end.

(** A build has succeeded when it returned its success message. *)
Definition build_succeeded (r : res string) : Prop :=
  exists n directory_path, r = Val (msg_indexed n directory_path).

(** The calls a tool invocation added to the log. *)
Definition new_calls (before after : Heap) : list Event :=
  skipn (length (calls before)) (calls after).

End Model.

Arguments mkWorld {Store Embeddings}.
Arguments import_langchain {Store Embeddings} w.
Arguments os_path_exists {Store Embeddings} w path.
Arguments loader_load {Store Embeddings} w path glob.
Arguments HuggingFaceEmbeddings {Store Embeddings} w model_name.
Arguments FAISS_from_documents {Store Embeddings} w docs embeddings.
Arguments similarity_search {Store Embeddings} w store query k.
Arguments EvImport {Store}.
Arguments EvExists {Store} path.
Arguments EvLoad {Store} path glob.
Arguments EvEmbeddings {Store} model_name.
Arguments EvFromDocuments {Store} docs.
Arguments EvSearch {Store} store query k.
Arguments mkHeap {Store}.
Arguments vector_store {Store} h.
Arguments calls {Store} h.
Arguments initial_heap {Store}.
Arguments ret {Store A} a h.
Arguments bind {Store A B} m k h.
Arguments raise {Store A} e h.
Arguments try_except {Store A} body handler h.
Arguments get_vector_store {Store} h.
Arguments set_vector_store {Store} v h.
Arguments call {Store A} ev r h.
Arguments index_notes {Store Embeddings} W directory_path h.
Arguments query_notes {Store Embeddings} W query h.
Arguments run_tool {Store Embeddings} W c h.
Arguments run_session {Store Embeddings} session h.
Arguments new_calls {Store} before after.
Arguments msg_dir_not_found : simpl never.
Arguments msg_indexed : simpl never.
Arguments msg_index_failed : simpl never.
Arguments msg_query_failed : simpl never.
Arguments results_header : simpl never.
Arguments append_result : simpl never.

(** ** A concrete world, to run the tools on

    The store is the list of documents it was built from, and a search
    returns its first [k] documents. *)
Module Sample.

Definition doc_at (source text : string) : Document :=
  {| page_content := text; metadata := {[ "source" := source ]} |}.

Definition readme : Document := doc_at "notes/readme.md" "hi".
Definition todo : Document := doc_at "notes/todo.txt" "buy milk".
Definition plan : Document := doc_at "work/plan.txt" "ship it".

Definition load (path glob : string) : res (list Document) :=
  if String.eqb path "notes" then
    if String.eqb glob md_glob then Val [readme] else Val [todo]
  else if String.eqb path "work" then
    if String.eqb glob md_glob then Val [] else Val [plan]
  else if String.eqb path "locked" then
    Raise {| exc_type := "PermissionError"; exc_str := "access denied" |}
  else Val [].

Definition world : World (list Document) unit :=
  {| import_langchain := None;
     os_path_exists := fun path => negb (String.eqb path "missing");
     loader_load := load;
     HuggingFaceEmbeddings := fun _ => Val tt;
     FAISS_from_documents := fun docs _ => Val docs;
     similarity_search := fun store _ k => Val (firstn k store) |}.

(** The same machine without the langchain packages installed. *)
Definition world_without_langchain : World (list Document) unit :=
  {| import_langchain :=
       Some {| exc_type := "ModuleNotFoundError";
               exc_str := "No module named 'langchain_community'" |};
     os_path_exists := os_path_exists world;
     loader_load := loader_load world;
     HuggingFaceEmbeddings := HuggingFaceEmbeddings world;
     FAISS_from_documents := FAISS_from_documents world;
     similarity_search := similarity_search world |}.

(** The same machine with the embedding model unreachable. *)
Definition world_offline : World (list Document) unit :=
  {| import_langchain := None;
     os_path_exists := os_path_exists world;
     loader_load := loader_load world;
     HuggingFaceEmbeddings := fun _ =>
       Raise {| exc_type := "OSError"; exc_str := "model not available" |};
     FAISS_from_documents := FAISS_from_documents world;
     similarity_search := similarity_search world |}.

Definition heap_with (store : list Document) : Heap (list Document) :=
  {| vector_store := Some store; calls := [] |}.

(** A query, then two builds that fail. *)
Definition quiet_session : list (World (list Document) unit * ToolCall) :=
  [ (world, QueryNotes "x");
    (world, IndexNotes "missing");
    (world_offline, IndexNotes "notes") ].

End Sample.

(** ** What the specification promises, in its own words *)

(** Follows the spec's wording for a rendered snippet: the first 500
    characters and an ellipsis marker when the text is longer than that,
    the text as it is otherwise. *)
Definition preview_spec (text : string) : string :=
  if Nat.ltb 500 (String.length text)
  then str_slice_to 500 text ++ "..."
  else text.

Definition block_spec (doc : Document) : string :=
  "--- Source: " ++ dict_get (metadata doc) "source" "Unknown" ++ " ---"
    ++ nl ++ preview_spec (page_content doc) ++ nl ++ nl.

(** What the code puts between the source line and the blank line. *)
Definition block (doc : Document) : string :=
  "--- Source: " ++ dict_get (metadata doc) "source" "Unknown" ++ " ---"
    ++ nl ++ snippet doc ++ "..." ++ nl ++ nl.

(** The blocks of a list of results, one after the other. *)
Definition blocks (results : list Document) : string :=
  fold_right (fun doc rest => block doc ++ rest) "" results.

(** What line 394 does to one character. *)
Definition clean (c : ascii) : ascii :=
  if Ascii.eqb c LF then " "%char else c.

(** What [query_notes] makes of the answer to its search: lines 391-397
    on a list of results, line 399 on an exception. *)
Definition search_result (r : res (list Document)) (query : string)
    : res string :=
  match r with
  | Val results => Val (fold_left append_result results (results_header query))
  | Raise e => Val (msg_query_failed e)
  end.

(** A query made no access to the store. *)
Definition no_store_access {Store} (evs : list (Event Store)) : Prop :=
  forall store query k, ~ In (EvSearch store query k) evs.

(** The documents a build over [directory_path] is to index, by the
    fallback policy: the [.md] documents when there are any, the [.txt]
    documents when there is no [.md] document, never both. *)
Definition selected {Store Embeddings} (W : World Store Embeddings)
    (directory_path : string) (docs : list Document) : Prop :=
  docs <> [] /\
  (loader_load W directory_path md_glob = Val docs \/
   (loader_load W directory_path md_glob = Val [] /\
    loader_load W directory_path txt_glob = Val docs)).

(** The calls of a build that goes through, in the order it makes them:
    the [.txt] load is there when the [.md] load found nothing. *)
Definition build_log {Store Embeddings} (W : World Store Embeddings)
    (directory_path : string) (docs : list Document) : list (Event Store) :=
  ([EvImport; EvExists directory_path; EvLoad directory_path md_glob]
   ++ match loader_load W directory_path md_glob with
      | Val [] => [EvLoad directory_path txt_glob]
      | _ => []
      end
   ++ [EvEmbeddings model_name; EvFromDocuments docs])%list.

(** Why a build did not succeed, and what it then hands to its caller. *)
Inductive build_failure {Store Embeddings} (W : World Store Embeddings)
    (directory_path : string) : res string -> Prop :=
| failure_import e :
    import_langchain W = Some e ->
    build_failure W directory_path (Raise e)
| failure_missing :
    import_langchain W = None ->
    os_path_exists W directory_path = false ->
    build_failure W directory_path (Val (msg_dir_not_found directory_path))
| failure_no_files :
    import_langchain W = None ->
    os_path_exists W directory_path = true ->
    loader_load W directory_path md_glob = Val [] ->
    loader_load W directory_path txt_glob = Val [] ->
    build_failure W directory_path (Val msg_no_files)
| failure_load_md e :
    import_langchain W = None ->
    os_path_exists W directory_path = true ->
    loader_load W directory_path md_glob = Raise e ->
    build_failure W directory_path (Val (msg_index_failed e))
| failure_load_txt e :
    import_langchain W = None ->
    os_path_exists W directory_path = true ->
    loader_load W directory_path md_glob = Val [] ->
    loader_load W directory_path txt_glob = Raise e ->
    build_failure W directory_path (Val (msg_index_failed e))
| failure_embeddings docs e :
    import_langchain W = None ->
    os_path_exists W directory_path = true ->
    selected W directory_path docs ->
    HuggingFaceEmbeddings W model_name = Raise e ->
    build_failure W directory_path (Val (msg_index_failed e))
| failure_store docs embeddings e :
    import_langchain W = None ->
    os_path_exists W directory_path = true ->
    selected W directory_path docs ->
    HuggingFaceEmbeddings W model_name = Val embeddings ->
    FAISS_from_documents W docs embeddings = Raise e ->
    build_failure W directory_path (Val (msg_index_failed e)).

(** ** The two tools as threads

    The host may run a query while a build is under way.  To follow such
    runs the tools are cut into steps, one access to the global
    [vector_store] or one collaborator call per step: a read of the
    global and an assignment to it are each a single step, as the
    interpreter performs them.  Everything else a thread holds is local
    to it. *)
Section Threads.

Variables Store Embeddings : Type.

(** Where a [query_notes] call stands. *)
Inductive QueryThread : Type :=
| QEntry (query : string)     (* at line 384, before the test of the global *)
| QLoad (query : string)      (* at line 389, before the global is read *)
| QSearch (query : string) (target : option Store)
                              (* the global read, before the search *)
| QReturn (r : res string).   (* returned *)

Definition query_step (W : World Store Embeddings) (t : QueryThread)
    (h : Heap Store) : QueryThread * Heap Store :=
  match t with
  | QEntry query =>
      match vector_store h with
      | None => (QReturn (Val msg_not_indexed), h)
      | Some _ => (QLoad query, h)
      end
  | QLoad query => (QSearch query (vector_store h), h)
  | QSearch query None =>
      (QReturn (Val (msg_query_failed AttributeError_NoneType)), h)
  | QSearch query (Some store) =>
      match call (EvSearch store query 3)
                 (similarity_search W store query 3) h with
      | (Val results, h') =>
          (QReturn (Val (fold_left append_result results
                           (results_header query))), h')
      | (Raise e, h') => (QReturn (Val (msg_query_failed e)), h')
      end
  | QReturn r => (QReturn r, h)
  end.

(** Where an [index_notes] call stands. *)
Inductive IndexThread : Type :=
| IEntry (directory_path : string)      (* before the imports *)
| IExists (directory_path : string)     (* line 351 *)
| ILoadMd (directory_path : string)     (* lines 355-356 *)
| ILoadTxt (directory_path : string)    (* lines 360-361 *)
| IEmbed (directory_path : string) (docs : list Document)   (* line 368 *)
| IBuild (directory_path : string) (docs : list Document)
         (embeddings : Embeddings)      (* line 369, the call *)
| IPublish (directory_path : string) (docs : list Document)
           (store : Store)              (* line 369, the assignment *)
| IReturn (r : res string).             (* returned *)

(** After a load inside the [try]: lines 358 and 363. *)
Definition after_load (directory_path : string) (txt_tried : bool)
    (r : res (list Document)) : IndexThread :=
  match r with
  | Raise e => IReturn (Val (msg_index_failed e))
  | Val docs =>
      if is_empty docs
      then if txt_tried then IReturn (Val msg_no_files)
           else ILoadTxt directory_path
      else IEmbed directory_path docs
  end.

Definition index_step (W : World Store Embeddings) (t : IndexThread)
    (h : Heap Store) : IndexThread * Heap Store :=
  match t with
  | IEntry directory_path =>
      let h' := snd (call EvImport (Val tt) h) in
      match import_langchain W with
      | None => (IExists directory_path, h')
      | Some e => (IReturn (Raise e), h')
      end
  | IExists directory_path =>
      let h' := snd (call (EvExists directory_path) (Val tt) h) in
      if os_path_exists W directory_path
      then (ILoadMd directory_path, h')
      else (IReturn (Val (msg_dir_not_found directory_path)), h')
  | ILoadMd directory_path =>
      let '(r, h') := call (EvLoad directory_path md_glob)
                        (loader_load W directory_path md_glob) h in
      (after_load directory_path false r, h')
  | ILoadTxt directory_path =>
      let '(r, h') := call (EvLoad directory_path txt_glob)
                        (loader_load W directory_path txt_glob) h in
      (after_load directory_path true r, h')
  | IEmbed directory_path docs =>
      match call (EvEmbeddings model_name)
                 (HuggingFaceEmbeddings W model_name) h with
      | (Val embeddings, h') => (IBuild directory_path docs embeddings, h')
      | (Raise e, h') => (IReturn (Val (msg_index_failed e)), h')
      end
  | IBuild directory_path docs embeddings =>
      match call (EvFromDocuments docs)
                 (FAISS_from_documents W docs embeddings) h with
      | (Val store, h') => (IPublish directory_path docs store, h')
      | (Raise e, h') => (IReturn (Val (msg_index_failed e)), h')
      end
  | IPublish directory_path docs store =>
      (IReturn (Val (msg_indexed (length docs) directory_path)),
       snd (set_vector_store (Some store) h))
  | IReturn r => (IReturn r, h)
  end.

(** One thread running alone for [n] steps. *)
Fixpoint run_query_thread (W : World Store Embeddings) (n : nat)
    (t : QueryThread) (h : Heap Store) : QueryThread * Heap Store :=
  match n with
  | 0 => (t, h)
  | S n' => let '(t', h') := query_step W t h in run_query_thread W n' t' h'
  end.

Fixpoint run_index_thread (W : World Store Embeddings) (n : nat)
    (t : IndexThread) (h : Heap Store) : IndexThread * Heap Store :=
  match n with
  | 0 => (t, h)
  | S n' => let '(t', h') := index_step W t h in run_index_thread W n' t' h'
  end.

(** A query and a build in flight over the shared heap. *)
Record Config : Type := mkConfig {
  shared : Heap Store;
  querying : QueryThread;
  indexing : IndexThread
}.

Inductive Turn : Type := TurnQuery | TurnIndex.

Definition step (W : World Store Embeddings) (turn : Turn) (c : Config)
    : Config :=
  match turn with
  | TurnQuery =>
      let '(t, h) := query_step W (querying c) (shared c) in
      {| shared := h; querying := t; indexing := indexing c |}
  | TurnIndex =>
      let '(t, h) := index_step W (indexing c) (shared c) in
      {| shared := h; querying := querying c; indexing := t |}
  end.

(** The scheduler picks who moves next; a returned thread stays put. *)
Fixpoint run_schedule (W : World Store Embeddings) (schedule : list Turn)
    (c : Config) : Config :=
  match schedule with
  | [] => c
  | turn :: rest => run_schedule W rest (step W turn c)
  end.

Definition start (h : Heap Store) (query directory_path : string) : Config :=
  {| shared := h; querying := QEntry query;
     indexing := IEntry directory_path |}.

(** How many turns a schedule gives to the query. *)
Fixpoint query_turns (schedule : list Turn) : nat :=
  match schedule with
  | [] => 0
  | TurnQuery :: rest => S (query_turns rest)
  | TurnIndex :: rest => query_turns rest
  end.

End Threads.

Arguments QEntry {Store} query.
Arguments QLoad {Store} query.
Arguments QSearch {Store} query target.
Arguments QReturn {Store} r.
Arguments IEntry {Store Embeddings} directory_path.
Arguments IExists {Store Embeddings} directory_path.
Arguments ILoadMd {Store Embeddings} directory_path.
Arguments ILoadTxt {Store Embeddings} directory_path.
Arguments IEmbed {Store Embeddings} directory_path docs.
Arguments IBuild {Store Embeddings} directory_path docs embeddings.
Arguments IPublish {Store Embeddings} directory_path docs store.
Arguments IReturn {Store Embeddings} r.
Arguments after_load {Store Embeddings} directory_path txt_tried r.
Arguments query_step {Store Embeddings} W t h.
Arguments index_step {Store Embeddings} W t h.
Arguments run_query_thread {Store Embeddings} W n t h.
Arguments run_index_thread {Store Embeddings} W n t h.
Arguments mkConfig {Store Embeddings}.
Arguments shared {Store Embeddings} c.
Arguments querying {Store Embeddings} c.
Arguments indexing {Store Embeddings} c.
Arguments step {Store Embeddings} W turn c.
Arguments run_schedule {Store Embeddings} W schedule c.
Arguments start {Store Embeddings} h query directory_path.

(** A schedule on which the build runs from start to end between the
    first and the second step of the query. *)
Definition build_overtakes : list Turn :=
  [TurnQuery; TurnIndex; TurnIndex; TurnIndex; TurnIndex; TurnIndex;
   TurnIndex; TurnIndex; TurnQuery; TurnQuery].

(** ** Invariants of a concurrent run

    [before] is the value of the global when the two calls start and
    [after] the value it has once the build has run to its end. *)

(** The steps a query still has to make, at most. *)
Definition query_distance {Store} (t : QueryThread Store) : nat :=
  match t with
  | QEntry _ => 3
  | QLoad _ => 2
  | QSearch _ _ => 1
  | QReturn _ => 0
  end.

(** The steps a build still has to make, at most. *)
Definition index_distance {Store Embeddings}
    (t : IndexThread Store Embeddings) : nat :=
  match t with
  | IEntry _ => 7
  | IExists _ => 6
  | ILoadMd _ => 5
  | ILoadTxt _ => 4
  | IEmbed _ _ => 3
  | IBuild _ _ _ => 2
  | IPublish _ _ _ => 1
  | IReturn _ => 0
  end.

(** How many turns a schedule gives to the build. *)
Fixpoint index_turns (schedule : list Turn) : nat :=
  match schedule with
  | [] => 0
  | TurnIndex :: rest => S (index_turns rest)
  | TurnQuery :: rest => index_turns rest
  end.

(** What a query answers when the global holds [v]. *)
Definition answer {Store Embeddings} (W : World Store Embeddings)
    (query : string) (v : option Store) : res string :=
  fst (query_notes W query {| vector_store := v; calls := [] |}).

(** Until the build returns the global is untouched, and the build is on
    its way to [after]; once it has returned the global is [after]. *)
Definition index_inv {Store Embeddings} (W : World Store Embeddings)
    (before after : option Store) (t : IndexThread Store Embeddings)
    (h : Heap Store) : Prop :=
  match t with
  | IReturn _ => vector_store h = after
  | _ =>
      vector_store h = before /\
      vector_store (snd (run_index_thread W 7 t h)) = after
  end.

(** The query holds one of the two stores, and answers from it. *)
Definition query_inv {Store Embeddings} (W : World Store Embeddings)
    (query : string) (before after : option Store) (t : QueryThread Store)
    (h : Heap Store) : Prop :=
  match t with
  | QEntry query' => query' = query
  | QLoad query' => query' = query /\ vector_store h <> None
  | QSearch query' target =>
      query' = query /\ target <> None /\
      (target = before \/ target = after)
  | QReturn r => r = answer W query before \/ r = answer W query after
  end.

Definition snapshot_inv {Store Embeddings} (W : World Store Embeddings)
    (query : string) (before after : option Store)
    (c : Config Store Embeddings) : Prop :=
  (vector_store (shared c) = before \/ vector_store (shared c) = after) /\
  (before <> None -> after <> None) /\
  index_inv W before after (indexing c) (shared c) /\
  query_inv W query before after (querying c) (shared c).

(** A query and a failed build, to follow a successful one. *)
Definition late_session : list (World (list Document) unit * ToolCall) :=
  [ (Sample.world, QueryNotes "x"); (Sample.world_offline, IndexNotes "work") ].

(** * The desktop tools

    The other tools of [src/main.py] drive the keyboard, the windows, the
    camera and a browser.  They share no state; what can be said of them
    is which actions they perform on the machine, in which order, and
    what they return. *)

(** ** More of Python's [str] and [int] *)

(** [str(n)] for an [int]. *)
Definition str_of_int (n : Z) : string :=
  NilZero.string_of_int (Z.to_int n).

Definition in_range (lo hi n : nat) : bool :=
  Nat.leb lo n && Nat.leb n hi.

(** [c.lower()] for one character: the letters A-Z and the accented
    capitals of Latin-1 move 32 places up, every other character stays. *)
Definition chr_lower (c : ascii) : ascii :=
  let n := nat_of_ascii c in
  if in_range 65 90 n || in_range 192 214 n || in_range 216 222 n
  then ascii_of_nat (n + 32)
  else c.

(** [s.lower()] *)
Fixpoint str_lower (s : string) : string :=
  match s with
  | EmptyString => EmptyString
  | String c s' => String (chr_lower c) (str_lower s')
  end.

(** [c.isspace()] for one character. *)
Definition chr_isspace (c : ascii) : bool :=
  let n := nat_of_ascii c in
  in_range 9 13 n || in_range 28 32 n || Nat.eqb n 133 || Nat.eqb n 160.

(** [s.lstrip()], [s.rstrip()] and [s.strip()] *)
Fixpoint str_lstrip (s : string) : string :=
  match s with
  | EmptyString => EmptyString
  | String c s' => if chr_isspace c then str_lstrip s' else s
  end.

Fixpoint str_rstrip (s : string) : string :=
  match s with
  | EmptyString => EmptyString
  | String c s' =>
      match str_rstrip s' with
      | EmptyString => if chr_isspace c then EmptyString else String c EmptyString
      | r => String c r
      end
  end.

Definition str_strip (s : string) : string := str_rstrip (str_lstrip s).

(** [s.split(sep)] for a one-character separator: never an empty list. *)
Fixpoint str_split (sep : ascii) (s : string) : list string :=
  match s with
  | EmptyString => [EmptyString]
  | String c s' =>
      if Ascii.eqb c sep then EmptyString :: str_split sep s'
      else match str_split sep s' with
           | first :: rest => String c first :: rest
           | [] => [String c EmptyString]
           end
  end.

(** [sep.join(parts)] *)
Fixpoint str_join (sep : ascii) (parts : list string) : string :=
  match parts with
  | [] => EmptyString
  | [part] => part
  | part :: rest => part ++ String sep (str_join sep rest)
  end.

(** [needle in haystack] *)
Fixpoint str_contains (needle haystack : string) : bool :=
  String.prefix needle haystack ||
  match haystack with
  | EmptyString => false
  | String _ rest => str_contains needle rest
  end.

(** [s.replace(old, new)] for a one-character [old]. *)
Fixpoint str_replace_with (old : ascii) (new : string) (s : string) : string :=
  match s with
  | EmptyString => EmptyString
  | String c s' =>
      if Ascii.eqb c old then new ++ str_replace_with old new s'
      else String c (str_replace_with old new s')
  end.

(** [c in s] for one character. *)
Fixpoint str_has (c : ascii) (s : string) : bool :=
  match s with
  | EmptyString => false
  | String c' s' => Ascii.eqb c' c || str_has c s'
  end.

(** [s.count(c)] for one character. *)
Fixpoint str_count (c : ascii) (s : string) : nat :=
  match s with
  | EmptyString => 0
  | String c' s' => (if Ascii.eqb c' c then 1 else 0) + str_count c s'
  end.

Module Desktop.

(** A top-level window as pywinauto shows it. *)
Record Window : Type := mkWindow {
  handle : nat;
  window_text : string;
  get_show_state : nat
}.

(** What a tool does to the machine, one entry per call to a library. *)
Inductive Action : Type :=
| Import (module : string)
| SendKeys (keys : string)               (* pywinauto.keyboard.send_keys *)
| Popen (command : string)               (* subprocess.Popen(.., shell=True) *)
| Sleep (milliseconds : nat)             (* time.sleep *)
| Press (key : string)                   (* pyautogui.press *)
| Hotkey (keys : list string)            (* pyautogui.hotkey, one argument per key *)
| NewDesktop                             (* Desktop(backend="uia") *)
| ListWindows                            (* desktop.windows() *)
| Restore (window : nat)                 (* window.restore() *)
| SetFocus (window : nat)                (* window.set_focus() *)
| VideoCapture (index : nat)             (* cv2.VideoCapture *)
| IsOpened                               (* cap.isOpened() *)
| Read                                   (* cap.read() *)
| Release                                (* cap.release() *)
| ImEncode (ext : string)                (* cv2.imencode *)
| PlaywrightStart                        (* sync_playwright().__enter__() *)
| PlaywrightStop                         (* .__exit__(..) *)
| Launch                                 (* p.chromium.launch(headless=True) *)
| NewPage                                (* browser.new_page() *)
| Goto (url : string)                    (* page.goto *)
| PageTitle                              (* page.title() *)
| InnerText (selector : string)          (* page.inner_text *)
| BrowserClose.                          (* browser.close() *)

(** The machine: whether an action raises, and what the queries return,
    each as it depends on what has been done so far. *)
Record World : Type := mkWorld {
  raises : list Action -> Action -> option PyException;
  windows : list Action -> list Window;
  is_opened : list Action -> bool;
  frame : list Action -> bool * string;      (* (ret, frame) of cap.read() *)
  jpeg_base64 : string -> string;            (* imencode, then b64encode *)
  page_title : list Action -> string;
  page_text : list Action -> string
}.

(** Statements run on the list of actions performed so far. *)
Definition IO (A : Type) : Type := list Action -> res A * list Action.

Definition ret {A} (a : A) : IO A := fun t => (Val a, t).

Definition bind {A B} (m : IO A) (k : A -> IO B) : IO B :=
  fun t =>
    match m t with
    | (Val a, t') => k a t'
    | (Raise e, t') => (Raise e, t')
    end.

(** [try: body  except Exception as e: handler(e)] *)
Definition try_except {A} (body : IO A) (handler : PyException -> IO A)
    : IO A :=
  fun t =>
    match body t with
    | (Val a, t') => (Val a, t')
    | (Raise e, t') => handler e t'
    end.

(** A library call that returns [answer]: it is recorded, and raises when
    the machine says so. *)
Definition ask {A} (W : World) (a : Action) (answer : list Action -> A)
    : IO A :=
  fun t =>
    (match raises W t a with
     | None => Val (answer t)
     | Some e => Raise e
     end, (t ++ [a])%list).

Definition perform (W : World) (a : Action) : IO unit :=
  ask W a (fun _ => tt).

Notation "x <- m ;; k" := (bind m (fun x => k))
  (at level 100, m at next level, right associativity).

(** [for _ in range(n): body] *)
Fixpoint for_range {A} (n : nat) (body : IO A) : IO unit :=
  match n with
  | 0 => ret tt
  | S n' => _ <- body ;; for_range n' body
  end.

(** [with manager: body], for a manager that lets exceptions through. *)
Definition with_ {A} (enter exit : IO unit) (body : IO A) : IO A :=
  _ <- enter ;;
  fun t =>
    let '(r, t') := body t in
    match exit t' with
    | (Val _, t'') => (r, t'')
    | (Raise e, t'') => (Raise e, t'')
    end.

(** ** [media_control] (lines 74-97) *)

Definition media_control (W : World) (action : string) : IO string :=
  _ <- perform W (Import "pywinauto.keyboard") ;;
  try_except
    (let executed := ret ("Executed media action: " ++ action) in
     if String.eqb action "play_pause" then
       _ <- perform W (SendKeys "{MEDIA_PLAY_PAUSE}") ;; executed
     else if String.eqb action "next" then
       _ <- perform W (SendKeys "{MEDIA_NEXT_TRACK}") ;; executed
     else if String.eqb action "prev" then
       _ <- perform W (SendKeys "{MEDIA_PREV_TRACK}") ;; executed
     else if String.eqb action "stop" then
       _ <- perform W (SendKeys "{MEDIA_STOP}") ;; executed
     else ret ("Unknown media action: " ++ action))
    (fun e => ret ("Failed to execute media action '" ++ action ++ "': "
                   ++ exc_str e)).

(** ** [volume_control] (lines 99-126) *)

Definition msg_volume (action : string) (steps : Z) : string :=
  "Volume " ++ action ++ " by " ++ str_of_int steps ++ " steps".
Definition msg_volume_unknown (action : string) : string :=
  "Unknown volume action: " ++ action.
Definition msg_volume_failed (action : string) (e : PyException) : string :=
  "Failed to execute volume action '" ++ action ++ "': " ++ exc_str e.

(** Line 115. *)
Definition volume_key (action : string) : option string :=
  if String.eqb action "up" then Some "{VOLUME_UP}"
  else if String.eqb action "down" then Some "{VOLUME_DOWN}"
  else None.

Definition volume_control (W : World) (action : string) (steps : Z)
    : IO string :=
  _ <- perform W (Import "pywinauto.keyboard") ;;
  try_except
    (if String.eqb action "mute" then
       _ <- perform W (SendKeys "{VOLUME_MUTE}") ;; ret "Toggled mute"
     else
       match volume_key action with
       | None => ret (msg_volume_unknown action)
       | Some key =>
           _ <- for_range (Z.to_nat steps) (perform W (SendKeys key)) ;;
           ret (msg_volume action steps)
       end)
    (fun e => ret (msg_volume_failed action e)).

(** ** [focus_window] (lines 25-54) *)

Definition msg_no_window (title_substring : string) : string :=
  "No window found containing '" ++ title_substring ++ "'".
Definition msg_focused (actual_title : string) : string :=
  "Successfully focused: '" ++ actual_title ++ "'".
Definition msg_focus_failed (title_substring : string) (e : PyException)
    : string :=
  "Failed to focus window matching '" ++ title_substring ++ "': "
    ++ exc_str e.

(** The test of line 37. *)
Definition title_matches (title_substring : string) (w : Window) : bool :=
  str_contains (str_lower title_substring) (str_lower (window_text w)).

Definition focus_window (W : World) (title_substring : string) : IO string :=
  try_except
    (_ <- perform W NewDesktop ;;
     windows <- ask W ListWindows (windows W) ;;
     let matches := List.filter (title_matches title_substring) windows in
     match matches with
     | [] => ret (msg_no_window title_substring)
     | target_window :: _ =>
         let actual_title := window_text target_window in
         _ <- (if Nat.eqb (get_show_state target_window) 2
               then perform W (Restore (handle target_window))
               else ret tt) ;;
         _ <- perform W (SetFocus (handle target_window)) ;;
         ret (msg_focused actual_title)
     end)
    (fun e => ret (msg_focus_failed title_substring e)).

(** ** [press_hotkey] (lines 257-273) *)

(** Lines 267-269. *)
Definition key_list (keys : string) : list string :=
  map (fun k => str_lower (str_strip k)) (str_split "+" keys).

Definition press_hotkey (W : World) (keys : string) : IO string :=
  _ <- perform W (Import "pyautogui") ;;
  try_except
    (_ <- perform W (Hotkey (key_list keys)) ;;
     ret ("Pressed hotkey: " ++ keys))
    (fun e => ret ("Failed to press hotkey '" ++ keys ++ "': " ++ exc_str e)).

(** ** [play_specific_song] (lines 471-507) *)

(** Line 485. *)
Definition search_query (song_name : string) : string :=
  str_replace_with " " "%20" song_name.

Definition spotify_command (song_name : string) : string :=
  "start spotify:search:" ++ search_query song_name.

Definition msg_song (song_name : string) : string :=
  "Opened Spotify for '" ++ song_name ++ "' and attempted to play.".

Definition play_specific_song (W : World) (song_name : string) : IO string :=
  _ <- perform W (Import "pyautogui") ;;
  try_except
    (_ <- perform W (Popen (spotify_command song_name)) ;;
     _ <- perform W (Sleep 3000) ;;
     _ <- perform W (Press "tab") ;;
     _ <- perform W (Sleep 500) ;;
     _ <- perform W (Press "enter") ;;
     ret (msg_song song_name))
    (fun e => ret ("Failed to play song: " ++ exc_str e)).

(** ** [take_webcam_photo] (lines 440-469) *)

Definition msg_photo (img_str : string) : string :=
  "Webcam photo taken. Data: data:image/jpeg;base64," ++ img_str.

Definition take_webcam_photo (W : World) : IO string :=
  _ <- perform W (Import "cv2") ;;
  try_except
    (_ <- perform W (VideoCapture 0) ;;
     opened <- ask W IsOpened (is_opened W) ;;
     if negb opened then ret "Failed to open webcam."
     else
       _ <- for_range 5 (ask W Read (frame W)) ;;
       captured <- ask W Read (frame W) ;;
       _ <- perform W Release ;;
       if negb (fst captured) then ret "Failed to capture frame."
       else
         img_str <- ask W (ImEncode ".jpg")
                      (fun _ => jpeg_base64 W (snd captured)) ;;
         ret (msg_photo img_str))
    (fun e => ret ("Failed to take webcam photo: " ++ exc_str e)).

(** ** [browser_navigate] (lines 288-307) *)

Definition msg_page (title content : string) : string :=
  "Page Title: " ++ title ++ nl ++ nl ++ "Content Snippet:" ++ nl
    ++ str_slice_to 500 content ++ "...".

Definition msg_navigate_failed (url : string) (e : PyException) : string :=
  "Failed to navigate to " ++ url ++ ": " ++ exc_str e.

Definition browser_navigate (W : World) (url : string) : IO string :=
  _ <- perform W (Import "playwright.sync_api") ;;
  try_except
    (with_ (perform W PlaywrightStart) (perform W PlaywrightStop)
       (_ <- perform W Launch ;;
        _ <- perform W NewPage ;;
        _ <- perform W (Goto url) ;;
        title <- ask W PageTitle (page_title W) ;;
        content <- ask W (InnerText "body") (page_text W) ;;
        _ <- perform W BrowserClose ;;
        ret (msg_page title content)))
    (fun e => ret (msg_navigate_failed url e)).

(** The actions a tool added to those performed before. *)
Definition new_actions (before after : list Action) : list Action :=
  skipn (length before) after.

(** The names [media_control] knows. *)
Definition media_actions : list string :=
  ["play_pause"; "next"; "prev"; "stop"].

(** [w] is the first window of [ws] whose title matches. *)
Definition first_match (title_substring : string) (ws : list Window)
    (w : Window) : Prop :=
  exists earlier later,
    ws = (earlier ++ w :: later)%list /\
    Forall (fun w' => title_matches title_substring w' = false) earlier /\
    title_matches title_substring w = true.

(** Everything [play_specific_song] does when nothing goes wrong. *)
Definition song_script (song_name : string) : list Action :=
  [ Import "pyautogui"; Popen (spotify_command song_name); Sleep 3000;
    Press "tab"; Sleep 500; Press "enter" ].

(** What [browser_navigate] does with a page when nothing goes wrong. *)
Definition page_script (url : string) : list Action :=
  [ Launch; NewPage; Goto url; PageTitle; InnerText "body"; BrowserClose ].

(** A string with no white space at either end. *)
Definition starts_clean (s : string) : Prop :=
  match s with
  | EmptyString => True
  | String c _ => chr_isspace c = false
  end.

(** A key name as [press_hotkey] hands it on: no separator in it, no
    capital letter, no white space around it. *)
Definition key_name (k : string) : Prop :=
  str_has "+" k = false /\ str_lower k = k /\ str_strip k = k.

(** The key each action of [media_control] stands for, lines 85-92. *)
Definition media_keys : list (string * string) :=
  [ ("play_pause", "{MEDIA_PLAY_PAUSE}"); ("next", "{MEDIA_NEXT_TRACK}");
    ("prev", "{MEDIA_PREV_TRACK}"); ("stop", "{MEDIA_STOP}") ].



(** How often an action of a given kind occurs in a list of actions. *)
Definition count_actions (p : Action -> bool) (t : list Action) : nat :=
  length (List.filter p t).

Definition is_send_keys (a : Action) : bool :=
  match a with SendKeys _ => true | _ => false end.
Definition is_read (a : Action) : bool :=
  match a with Read => true | _ => false end.

(** A machine on which nothing goes wrong, with two windows, a camera
    and a page. *)
Definition sample_windows : list Window :=
  [ {| handle := 1; window_text := "Untitled - Notepad"; get_show_state := 1 |};
    {| handle := 2; window_text := "Spotify Premium"; get_show_state := 2 |};
    {| handle := 3; window_text := "notes.txt - Notepad"; get_show_state := 1 |} ].

Definition calm : World :=
  {| raises := fun _ _ => None;
     windows := fun _ => sample_windows;
     is_opened := fun _ => true;
     frame := fun _ => (true, "raw");
     jpeg_base64 := fun _ => "/9j/";
     page_title := fun _ => "Example Domain";
     page_text := fun _ => "Example" |}.

(** The same machine, on which the third key press is refused. *)
Definition sticky : World :=
  {| raises := fun t a =>
       if is_send_keys a && Nat.eqb (count_actions is_send_keys t) 2
       then Some {| exc_type := "RuntimeError"; exc_str := "input blocked" |}
       else None;
     windows := windows calm;
     is_opened := is_opened calm;
     frame := frame calm;
     jpeg_base64 := jpeg_base64 calm;
     page_title := page_title calm;
     page_text := page_text calm |}.

End Desktop.

(** * The process list

    [list_processes] (lines 151-176) sorts the processes by the share of
    memory they use.  That share is a float; all that is used of it here
    is how two shares compare, which of them count as false, and how one
    is printed with one decimal. *)
Module Processes.

(** [l[:limit]] for an [int] limit: a negative one counts from the end. *)
Definition py_slice_to {A} (limit : Z) (l : list A) : list A :=
  if (0 <=? limit)%Z then firstn (Z.to_nat limit) l
  else firstn (Z.to_nat (Z.of_nat (length l) + limit)) l.

Section WithMemory.

Variable Mem : Type.
Variable mem_zero : Mem.                    (* the number 0 *)
Variable mem_falsy : Mem -> bool.           (* [not m]: true of 0.0 *)
Variable mem_ltb : Mem -> Mem -> bool.      (* [a < b] *)
Variable fmt_1f : Mem -> string.            (* [f"{m:.1f}"] *)

(** The dict [proc.info] for the attributes asked for on line 162. *)
Record ProcInfo : Type := mkProc {
  pid : nat;
  name : string;
  memory_percent : option Mem
}.

(** [p['memory_percent'] or 0], lines 169 and 173. *)
Definition or_zero (p : ProcInfo) : Mem :=
  match memory_percent p with
  | Some m => if mem_falsy m then mem_zero else m
  | None => mem_zero
  end.

(** [procs.sort(key=.., reverse=True)]: the greatest key first, and
    processes with equal keys in the order they had. *)
Fixpoint insert_desc (p : ProcInfo) (l : list ProcInfo) : list ProcInfo :=
  match l with
  | [] => [p]
  | q :: l' =>
      if mem_ltb (or_zero p) (or_zero q) then q :: insert_desc p l'
      else p :: l
  end.

Definition sort_desc (l : list ProcInfo) : list ProcInfo :=
  fold_right insert_desc [] l.

(** The machine: the import of psutil, and what [process_iter] yields,
    each process either with its info or raising when asked for it. *)
Record World : Type := mkWorld {
  import_psutil : option PyException;
  process_iter : res (list (res ProcInfo))
}.

(** The classes caught on line 165. *)
Definition skipped (e : PyException) : bool :=
  String.eqb (exc_type e) "NoSuchProcess"
  || String.eqb (exc_type e) "AccessDenied"
  || String.eqb (exc_type e) "ZombieProcess".

(** The loop of lines 162-166. *)
Fixpoint collect (items : list (res ProcInfo)) : res (list ProcInfo) :=
  match items with
  | [] => Val []
  | Val info :: rest =>
      match collect rest with
      | Val procs => Val (info :: procs)
      | Raise e => Raise e
      end
  | Raise e :: rest => if skipped e then collect rest else Raise e
  end.

Definition header : string := "Top Processes by Memory:" ++ nl.

(** The body of the loop of lines 172-174. *)
Definition append_line (output : string) (p : ProcInfo) : string :=
  let mem := or_zero p in
  output ++ ("- " ++ name p ++ " (PID: " ++ str_of_nat (pid p) ++ "): "
             ++ fmt_1f mem ++ "%" ++ nl).

(** The processes that get a line, in the order of their lines. *)
Definition listed (procs : list ProcInfo) (limit : Z) : list ProcInfo :=
  py_slice_to limit (sort_desc procs).

Definition list_processes (W : World) (limit : Z) : res string :=
  match import_psutil W with
  | Some e => Raise e
  | None =>
      match process_iter W with
      | Raise e => Raise e
      | Val items =>
          match collect items with
          | Raise e => Raise e
          | Val procs => Val (fold_left append_line (listed procs limit) header)
          end
      end
  end.

(** The processes whose info could be read. *)
Fixpoint readable (items : list (res ProcInfo)) : list ProcInfo :=
  match items with
  | [] => []
  | Val info :: rest => info :: readable rest
  | Raise _ :: rest => readable rest
  end.

(** No process raises anything but the classes that are caught. *)
Definition harmless (items : list (res ProcInfo)) : Prop :=
  Forall (fun item => match item with
                      | Val _ => True
                      | Raise e => skipped e = true
                      end) items.

(** [p] does not use less memory than [q]. *)
Definition not_less (p q : ProcInfo) : Prop :=
  mem_ltb (or_zero p) (or_zero q) = false.

End WithMemory.

Arguments mkProc {Mem}.
Arguments pid {Mem} p.
Arguments name {Mem} p.
Arguments memory_percent {Mem} p.
Arguments mkWorld {Mem}.
Arguments import_psutil {Mem} w.
Arguments process_iter {Mem} w.
Arguments or_zero {Mem} mem_zero mem_falsy p.
Arguments insert_desc {Mem} mem_zero mem_falsy mem_ltb p l.
Arguments sort_desc {Mem} mem_zero mem_falsy mem_ltb l.
Arguments collect {Mem} items.
Arguments append_line {Mem} mem_zero mem_falsy fmt_1f output p.
Arguments listed {Mem} mem_zero mem_falsy mem_ltb procs limit.
Arguments list_processes {Mem} mem_zero mem_falsy mem_ltb fmt_1f W limit.
Arguments readable {Mem} items.
Arguments harmless {Mem} items.
Arguments not_less {Mem} mem_zero mem_falsy mem_ltb p q.

(** A machine with four processes, memory counted in tenths of a
    percent, one of which cannot be read. *)
Definition tenths (m : nat) : string :=
  str_of_nat (m / 10) ++ "." ++ str_of_nat (m mod 10).

Definition sample_items : list (res (ProcInfo nat)) :=
  [ Val {| pid := 4; name := "System"; memory_percent := Some 1 |};
    Val {| pid := 812; name := "chrome.exe"; memory_percent := Some 64 |};
    Raise {| exc_type := "AccessDenied"; exc_str := "pid=4711" |};
    Val {| pid := 930; name := "Code.exe"; memory_percent := Some 120 |};
    Val {| pid := 77; name := "idle"; memory_percent := None |} ].

Definition sample : World nat :=
  {| import_psutil := None; process_iter := Val sample_items |}.

Definition sample_list (limit : Z) : res string :=
  list_processes 0 (Nat.eqb 0) Nat.ltb tenths sample limit.

(** The same machine with a process that fails in another way. *)
Definition broken : World nat :=
  {| import_psutil := None;
     process_iter :=
       Val (sample_items
              ++ Raise {| exc_type := "OSError"; exc_str := "no /proc" |}
              :: sample_items)%list |}.

End Processes.

(** * Properties *)

Section Properties.

Local Open Scope list_scope.

Context {Store Embeddings : Type}.
Implicit Types (W : World Store Embeddings) (h : Heap Store).
Implicit Types (r : res string) (e : PyException).

(** ** Messages *)

Lemma raise_not_success e : ~ build_succeeded (Raise e).
Proof. intros (n & d & H). discriminate H. Qed.

Lemma dir_not_found_not_success d : ~ build_succeeded (Val (msg_dir_not_found d)).
Proof. intros (n & d' & H). discriminate H. Qed.

Lemma no_files_not_success : ~ build_succeeded (Val msg_no_files).
Proof. intros (n & d' & H). discriminate H. Qed.

Lemma index_failed_not_success e : ~ build_succeeded (Val (msg_index_failed e)).
Proof. intros (n & d' & H). discriminate H. Qed.

Lemma indexed_success n d : build_succeeded (Val (msg_indexed n d)).
Proof. exists n, d. reflexivity. Qed.

(** ** The log *)

Lemma new_calls_app h h' (evs : list (Event Store)) :
  calls h' = calls h ++ evs -> new_calls h h' = evs.
Proof.
  unfold new_calls. intros ->. induction (calls h) as [|x l IH]; simpl; auto.
Qed.

Lemma new_calls_same h : new_calls h h = [].
Proof. apply new_calls_app. symmetry. apply app_nil_r. Qed.

(** ** What one build does *)

(** Case analysis on the collaborators' answers, in the order the tool
    asks for them. *)
Ltac ask_world W d :=
  destruct (import_langchain W) as [?e|] eqn:Himp; simpl;
  [| destruct (os_path_exists W d) eqn:Hex; simpl;
     [ destruct (loader_load W d md_glob) as [[|? ?]|?e] eqn:Hmd; simpl;
       [ destruct (loader_load W d txt_glob) as [[|? ?]|?e] eqn:Htxt; simpl
       | | ];
       match goal with
       | |- context [HuggingFaceEmbeddings W model_name] =>
           destruct (HuggingFaceEmbeddings W model_name)
             as [emb|?e] eqn:Hemb; simpl;
           [ match goal with
             | |- context [FAISS_from_documents W ?docs emb] =>
                 destruct (FAISS_from_documents W docs emb)
                   as [st|?e] eqn:Hst; simpl
             end
           | ]
       | _ => idtac
       end
     | ] ].

Ltac run_index W d :=
  unfold index_notes, bind, try_except, call, ret, set_vector_store;
  simpl; ask_world W d.

Lemma selected_md W d doc docs :
  loader_load W d md_glob = Val (doc :: docs) -> selected W d (doc :: docs).
Proof. intros H. split; [discriminate | left; exact H]. Qed.

Lemma selected_txt W d doc docs :
  loader_load W d md_glob = Val [] ->
  loader_load W d txt_glob = Val (doc :: docs) -> selected W d (doc :: docs).
Proof. intros Hmd Htxt. split; [discriminate | right; split; assumption]. Qed.

Create HintDb build.
Local Hint Resolve selected_md selected_txt : build.
Local Hint Resolve dir_not_found_not_success no_files_not_success
  index_failed_not_success raise_not_success indexed_success : build.
Local Hint Constructors build_failure : build.

(** A build either fails, leaving the global as it was, or publishes the
    store made from the selected documents. *)
Lemma index_notes_outcome W d h :
  (build_failure W d (fst (index_notes W d h)) /\
   ~ build_succeeded (fst (index_notes W d h)) /\
   vector_store (snd (index_notes W d h)) = vector_store h)
  \/
  (exists docs embeddings store,
     selected W d docs /\
     HuggingFaceEmbeddings W model_name = Val embeddings /\
     FAISS_from_documents W docs embeddings = Val store /\
     import_langchain W = None /\
     os_path_exists W d = true /\
     fst (index_notes W d h) = Val (msg_indexed (length docs) d) /\
     vector_store (snd (index_notes W d h)) = Some store).
Proof.
  run_index W d;
    try (left; split; [| split; [|reflexivity]]; eauto with build; fail);
    right; eexists _, _, _; (split; [eauto with build|]);
    repeat split; eauto.
Qed.

(** What a query returns depends on the heap through the global only. *)
Lemma query_notes_none W q h :
  vector_store h = None -> query_notes W q h = (Val msg_not_indexed, h).
Proof.
  intros Hv. unfold query_notes, bind, get_vector_store, ret.
  rewrite Hv. reflexivity.
Qed.

Lemma query_notes_some W q h store :
  vector_store h = Some store ->
  query_notes W q h =
    (search_result (similarity_search W store q 3) q,
     {| vector_store := vector_store h;
        calls := calls h ++ [EvSearch store q 3] |}).
Proof.
  intros Hv.
  unfold query_notes, bind, try_except, get_vector_store, call, ret.
  cbv beta. rewrite !Hv.
  destruct (similarity_search W store q 3); reflexivity.
Qed.

Lemma query_notes_result_global W q h1 h2 :
  vector_store h1 = vector_store h2 ->
  fst (query_notes W q h1) = fst (query_notes W q h2).
Proof.
  intros Hv. destruct (vector_store h1) as [store|] eqn:H1.
  - rewrite (query_notes_some W q h1 store H1).
    rewrite (query_notes_some W q h2 store (eq_sym Hv)). reflexivity.
  - rewrite (query_notes_none W q h1 H1).
    rewrite (query_notes_none W q h2 (eq_sym Hv)). reflexivity.
Qed.

Lemma query_notes_keeps_global W q h :
  vector_store (snd (query_notes W q h)) = vector_store h.
Proof.
  destruct (vector_store h) as [store|] eqn:Hv.
  - rewrite (query_notes_some W q h store Hv). simpl. exact Hv.
  - rewrite (query_notes_none W q h Hv). simpl. exact Hv.
Qed.

(** ** Builds *)

(** C1.  A build that does not succeed -- the directory is missing, no
    file matches, a load, the embedding model or the store construction
    raises, or the imports fail -- leaves the global [vector_store] as it
    was before the call: still [None] if nothing was indexed, still the
    old store otherwise, and any query is then answered exactly as it
    would have been before the call.  What the caller gets back names the
    cause of the failure. *)
Theorem index_notes_failure_keeps_index W d h :
  ~ build_succeeded (fst (index_notes W d h)) ->
  vector_store (snd (index_notes W d h)) = vector_store h /\
  build_failure W d (fst (index_notes W d h)) /\
  (forall W' q,
     fst (query_notes W' q (snd (index_notes W d h)))
     = fst (query_notes W' q h)).
Proof.
  intros Hfail.
  destruct (index_notes_outcome W d h)
    as [(Hcause & _ & Hsame) | (docs & emb & st & _ & _ & _ & _ & _ & Hr & _)].
  - repeat split; auto.
    intros W' q. apply query_notes_result_global. exact Hsame.
  - exfalso. apply Hfail. rewrite Hr. apply indexed_success.
Qed.

(** C3.  After a successful build over [D1] followed by a successful
    build over [D2], the global holds the store FAISS made from the
    documents selected in [D2] and from nothing else: it is the very store
    a build over [D2] publishes from any other heap, in particular from
    one on which [D1] was never indexed. *)
Theorem rebuild_replaces_index W1 W2 D1 D2 h0 :
  build_succeeded (fst (index_notes W1 D1 h0)) ->
  build_succeeded (fst (index_notes W2 D2 (snd (index_notes W1 D1 h0)))) ->
  (exists docs embeddings store,
     selected W2 D2 docs /\
     HuggingFaceEmbeddings W2 model_name = Val embeddings /\
     FAISS_from_documents W2 docs embeddings = Val store /\
     vector_store (snd (index_notes W2 D2 (snd (index_notes W1 D1 h0))))
     = Some store) /\
  (forall h,
     vector_store (snd (index_notes W2 D2 (snd (index_notes W1 D1 h0))))
     = vector_store (snd (index_notes W2 D2 h))).
Proof.
  intros _ H2.
  set (h1 := snd (index_notes W1 D1 h0)) in *.
  destruct (index_notes_outcome W2 D2 h1)
    as [(_ & Hfail & _) | (docs & emb & st & Hsel & Hemb & Hst & Himp & Hex & Hr & Hv)].
  { contradiction. }
  split.
  - exists docs, emb, st. auto.
  - intros h. rewrite Hv.
    destruct (index_notes_outcome W2 D2 h)
      as [(_ & Hfail & _) | (docs' & emb' & st' & Hsel' & Hemb' & Hst' & _ & _ & Hr' & Hv')].
    + exfalso. apply Hfail.
      clear - Himp Hex Hsel Hemb Hst.
      destruct Hsel as [Hne [Hmd | [Hmd Htxt]]];
        unfold index_notes, bind, try_except, call, ret, set_vector_store;
        simpl; rewrite Himp; simpl; rewrite Hex; simpl; rewrite Hmd; simpl.
      * destruct docs; [congruence|]. simpl. rewrite Hemb. simpl.
        rewrite Hst. simpl. apply indexed_success.
      * rewrite Htxt. simpl.
        destruct docs; [congruence|]. simpl. rewrite Hemb. simpl.
        rewrite Hst. simpl. apply indexed_success.
    + rewrite Hv'.
      assert (docs' = docs) as ->.
      { destruct Hsel as [Hne [Hmd | [Hmd Htxt]]],
                 Hsel' as [Hne' [Hmd' | [Hmd' Htxt']]]; congruence. }
      congruence.
Qed.

Ltac read_log :=
  simpl; rewrite <- ?app_assoc;
  erewrite new_calls_app by (simpl; reflexivity); simpl.

(** C4.  Over an existing directory the [.md] filter is always tried; the
    [.txt] filter is tried exactly when the [.md] load returned no
    document; the documents handed to FAISS are those of one load only --
    the [.md] documents when there are any, the [.txt] documents
    otherwise -- and a successful build reports their number and
    publishes the store made from them.  And the selection is indexed
    indeed: once there are documents and the embedding model is there,
    they are handed to FAISS, all of them and nothing else, and when
    FAISS returns a store the build makes exactly the calls of
    [build_log], reports the number of documents and publishes that
    store. *)
Theorem index_notes_fallback_policy W d h :
  import_langchain W = None ->
  os_path_exists W d = true ->
  In (EvLoad d md_glob) (new_calls h (snd (index_notes W d h))) /\
  (In (EvLoad d txt_glob) (new_calls h (snd (index_notes W d h)))
   <-> loader_load W d md_glob = Val []) /\
  (forall docs,
     In (EvFromDocuments docs) (new_calls h (snd (index_notes W d h))) ->
     selected W d docs) /\
  (build_succeeded (fst (index_notes W d h)) ->
   exists docs embeddings store,
     selected W d docs /\
     HuggingFaceEmbeddings W model_name = Val embeddings /\
     FAISS_from_documents W docs embeddings = Val store /\
     fst (index_notes W d h) = Val (msg_indexed (length docs) d) /\
     vector_store (snd (index_notes W d h)) = Some store) /\
  (forall docs embeddings,
     selected W d docs ->
     HuggingFaceEmbeddings W model_name = Val embeddings ->
     In (EvFromDocuments docs) (new_calls h (snd (index_notes W d h)))) /\
  (forall docs embeddings store,
     selected W d docs ->
     HuggingFaceEmbeddings W model_name = Val embeddings ->
     FAISS_from_documents W docs embeddings = Val store ->
     index_notes W d h
     = (Val (msg_indexed (length docs) d),
        {| vector_store := Some store;
           calls := calls h ++ build_log W d docs |})).
Proof.
  intros Himp' Hex'.
  split; [| split; [| split; [| split; [| split]]]].
  - run_index W d; try congruence; read_log; auto 10.
  - run_index W d; try congruence; read_log;
      (split; [intros Hin | intros Heq]); try congruence; auto 10;
      unfold md_glob, txt_glob in *; intuition congruence.
  - intros docs. run_index W d; try congruence; read_log;
      intros Hin; intuition (try congruence);
      match goal with
      | H : EvFromDocuments _ = EvFromDocuments _ |- _ =>
          injection H as <-; eauto with build
      end.
  - intros Hok.
    destruct (index_notes_outcome W d h)
      as [(_ & Hfail & _) | (docs & emb & st & Hsel & Hemb & Hst & _ & _ & Hr & Hv)].
    + contradiction.
    + exists docs, emb, st. auto.
  - intros docs emb [Hne [Hmd | [Hmd Htxt]]] Hemb;
      (destruct docs as [| doc docs]; [congruence |]);
      unfold index_notes, bind, try_except, call, ret, set_vector_store;
      simpl; rewrite Himp'; simpl; rewrite Hex'; simpl; rewrite Hmd; simpl;
      rewrite ?Htxt; simpl; rewrite Hemb; simpl;
      destruct (FAISS_from_documents W (doc :: docs) emb); read_log; auto 10.
  - intros docs emb st [Hne [Hmd | [Hmd Htxt]]] Hemb Hst;
      (destruct docs as [| doc docs]; [congruence |]);
      unfold index_notes, bind, try_except, call, ret, set_vector_store,
        build_log;
      simpl; rewrite Himp'; simpl; rewrite Hex'; simpl; rewrite Hmd; simpl;
      rewrite ?Htxt; simpl; rewrite Hemb; simpl; rewrite Hst; simpl;
      rewrite <- ?app_assoc; reflexivity.
Qed.

(** ** Sessions *)

Lemma run_session_cons W c (rest : list (World Store Embeddings * ToolCall)) h :
  run_session ((W, c) :: rest) h =
    (fst (run_tool W c h) :: fst (run_session rest (snd (run_tool W c h))),
     snd (run_session rest (snd (run_tool W c h)))).
Proof.
  simpl. destruct (run_tool W c h) as [r h1]. simpl.
  destruct (run_session rest h1) as [rs h2]. reflexivity.
Qed.

(** One call changes the global only by a successful build. *)
Lemma run_tool_global W c h :
  vector_store (snd (run_tool W c h)) = vector_store h \/
  (exists d, c = IndexNotes d /\ build_succeeded (fst (run_tool W c h))).
Proof.
  destruct c as [d | q]; simpl.
  - destruct (index_notes_outcome W d h)
      as [(_ & _ & Hsame) | (docs & _ & _ & _ & _ & _ & _ & _ & Hr & _)].
    + left. exact Hsame.
    + right. exists d. split; [reflexivity|]. rewrite Hr. apply indexed_success.
  - left. apply query_notes_keeps_global.
Qed.

Lemma session_without_success_keeps_global
    (session : list (World Store Embeddings * ToolCall)) :
  forall h,
    Forall (fun r => ~ build_succeeded r) (fst (run_session session h)) ->
    vector_store (snd (run_session session h)) = vector_store h.
Proof.
  induction session as [| [W c] rest IH]; intros h Hall.
  - reflexivity.
  - rewrite run_session_cons in *. simpl in *.
    inversion Hall as [| r rs Hr Hrs]; subst.
    rewrite (IH _ Hrs).
    destruct (run_tool_global W c h) as [Hsame | (d & _ & Hok)].
    + exact Hsame.
    + contradiction.
Qed.

(** C2.  As long as no build of the session has succeeded, the global is
    still [None], and a query returns the message that tells the caller
    to run [index_notes] first; the heap, log included, is left as it
    was, so the store was not searched. *)
Theorem query_before_any_build
    (session : list (World Store Embeddings * ToolCall)) W q :
  Forall (fun r => ~ build_succeeded r)
         (fst (run_session session initial_heap)) ->
  query_notes W q (snd (run_session session initial_heap))
  = (Val msg_not_indexed, snd (run_session session initial_heap)) /\
  no_store_access
    (new_calls (snd (run_session session initial_heap))
       (snd (query_notes W q (snd (run_session session initial_heap))))).
Proof.
  intros Hall.
  pose proof (session_without_success_keeps_global session _ Hall) as Hnone.
  simpl in Hnone.
  rewrite (query_notes_none W q _ Hnone). split; [reflexivity|].
  simpl. rewrite new_calls_same. intros store query k [].
Qed.

(** ** Queries *)

(** C5 (as amended).  An empty query text is not checked.  With nothing
    indexed the call returns the not-indexed message and leaves the heap
    as it was; with an index the store is searched for the empty text,
    once and with [k = 3], and the outcome of that search is rendered as
    for any other query. *)
Theorem query_notes_empty_text W h :
  match vector_store h with
  | None => query_notes W "" h = (Val msg_not_indexed, h)
  | Some store =>
      query_notes W "" h =
        (search_result (similarity_search W store "" 3) "",
         {| vector_store := vector_store h;
            calls := calls h ++ [EvSearch store "" 3] |})
  end.
Proof.
  destruct (vector_store h) as [store|] eqn:Hv.
  - rewrite (query_notes_some W "" h store Hv), Hv. reflexivity.
  - apply query_notes_none. exact Hv.
Qed.

(** What a query adds to the log. *)
Lemma query_notes_calls W q h :
  new_calls h (snd (query_notes W q h)) =
    match vector_store h with
    | None => []
    | Some store => [EvSearch store q 3]
    end.
Proof.
  destruct (vector_store h) as [store|] eqn:Hv.
  - rewrite (query_notes_some W q h store Hv). apply new_calls_app. reflexivity.
  - rewrite (query_notes_none W q h Hv). apply new_calls_same.
Qed.

(** C7 (as amended).  [query_notes] takes the query text and nothing
    else; every search it makes is for that text, against the store the
    global holds, and asks for the top 3 results. *)
Theorem query_notes_searches_top_3 W q h store q' k :
  In (EvSearch store q' k) (new_calls h (snd (query_notes W q h))) ->
  k = 3 /\ q' = q /\ vector_store h = Some store.
Proof.
  rewrite query_notes_calls.
  destruct (vector_store h) as [store0|]; simpl; [| tauto].
  intros [Heq | []]. injection Heq as -> -> ->. auto.
Qed.

(** C10.  A query never assigns the global: whatever the query text and
    whatever the search does, [vector_store] is the same after the call as
    before.  Of the two tools only a build that succeeds changes it. *)
Theorem query_notes_read_only W :
  (forall q h, vector_store (snd (query_notes W q h)) = vector_store h) /\
  (forall c h,
     vector_store (snd (run_tool W c h)) = vector_store h \/
     exists d, c = IndexNotes d /\ build_succeeded (fst (run_tool W c h))).
Proof.
  split.
  - intros q h. apply query_notes_keeps_global.
  - intros c h. apply run_tool_global.
Qed.

(** C8 (as amended).  A query never lets an exception out: whatever the
    search raises comes back as a message.  A build lets out exactly the
    exceptions of its imports, which run before its [try] block is
    entered; every exception raised by the existence check, the loads,
    the embedding model or the store construction comes back as a
    message. *)
Theorem tools_return_errors_as_messages W :
  (forall q h, exists msg, fst (query_notes W q h) = Val msg) /\
  (forall d h,
     match import_langchain W with
     | None => exists msg, fst (index_notes W d h) = Val msg
     | Some e => fst (index_notes W d h) = Raise e
     end).
Proof.
  split.
  - intros q h. destruct (vector_store h) as [store|] eqn:Hv.
    + rewrite (query_notes_some W q h store Hv). simpl.
      destruct (similarity_search W store q 3); simpl; eauto.
    + rewrite (query_notes_none W q h Hv). simpl. eauto.
  - intros d h. run_index W d; eauto.
Qed.

(** ** Rendering *)

Lemma str_app_assoc (a b c : string) :
  ((a ++ b) ++ c = a ++ (b ++ c))%string.
Proof.
  induction a as [| x a IH]; [reflexivity |].
  change (String x ((a ++ b) ++ c) = String x (a ++ (b ++ c)))%string.
  now rewrite IH.
Qed.

Lemma str_app_empty (a : string) : (a ++ "" = a)%string.
Proof.
  induction a as [| x a IH]; [reflexivity |].
  change (String x (a ++ "") = String x a)%string.
  now rewrite IH.
Qed.

Lemma append_result_block out doc :
  append_result out doc = (out ++ block doc)%string.
Proof. reflexivity. Qed.

Lemma fold_append_result results :
  forall out,
    fold_left append_result results out = (out ++ blocks results)%string.
Proof.
  induction results as [| doc rest IH]; intros out; simpl.
  - symmetry. apply str_app_empty.
  - rewrite IH, append_result_block. apply str_app_assoc.
Qed.

Lemma str_slice_to_length n :
  forall s, String.length (str_slice_to n s) = Nat.min n (String.length s).
Proof.
  induction n as [| n IH]; intros [| c s]; simpl; auto.
Qed.

Lemma str_slice_to_get n :
  forall s i, i < n -> String.get i (str_slice_to n s) = String.get i s.
Proof.
  induction n as [| n IH]; intros s i Hi; [lia |].
  destruct s as [| c s]; simpl; [reflexivity |].
  destruct i as [| i]; [reflexivity |]. apply IH. lia.
Qed.

Lemma str_slice_to_prefix n :
  forall s, exists rest, s = (str_slice_to n s ++ rest)%string.
Proof.
  induction n as [| n IH]; intros s.
  - exists s. destruct s; reflexivity.
  - destruct s as [| c s].
    + exists ""%string. reflexivity.
    + destruct (IH s) as [rest Hrest]. exists rest.
      change (String c s = String c (str_slice_to n s ++ rest))%string.
      now rewrite <- Hrest.
Qed.

Lemma str_replace_length old new s :
  String.length (str_replace old new s) = String.length s.
Proof. induction s as [| c s IH]; simpl; auto. Qed.

Lemma str_replace_get old new s :
  forall i,
    String.get i (str_replace old new s)
    = option_map (fun c => if Ascii.eqb c old then new else c)
        (String.get i s).
Proof.
  induction s as [| c s IH]; intros i; simpl; [reflexivity |].
  destruct i as [| i]; [reflexivity | apply IH].
Qed.

(** C6 (as amended).  The output of a query is the header followed by
    one block per result, in the order of the results.  In every block
    the snippet is the first 500 characters of the text, each line feed
    among them replaced by a space, and it is followed by the ellipsis
    marker whether the text was longer than 500 characters or not. *)
Theorem query_notes_renders_snippets W q h store results :
  vector_store h = Some store ->
  similarity_search W store q 3 = Val results ->
  fst (query_notes W q h) = Val (results_header q ++ blocks results)%string /\
  (forall doc,
     block doc =
       ("--- Source: " ++ dict_get (metadata doc) "source" "Unknown"
          ++ " ---" ++ nl ++ snippet doc ++ "..." ++ nl ++ nl)%string /\
     String.length (snippet doc)
     = Nat.min 500 (String.length (page_content doc)) /\
     (forall i, i < 500 ->
        String.get i (snippet doc)
        = option_map clean (String.get i (page_content doc))) /\
     (exists rest,
        page_content doc
        = (str_slice_to 500 (page_content doc) ++ rest)%string)).
Proof.
  intros Hv Hsearch.
  rewrite (query_notes_some W q h store Hv), Hsearch.
  cbn [fst search_result].
  split.
  - now rewrite fold_append_result.
  - intros doc. unfold snippet. repeat split.
    + now rewrite str_replace_length, str_slice_to_length.
    + intros i Hi. rewrite str_replace_get, str_slice_to_get by exact Hi.
      reflexivity.
    + apply str_slice_to_prefix.
Qed.

(** ** A query beside a build *)

(** The steps of a thread running alone add up to the tool. *)
Lemma query_thread_sequential W q h :
  run_query_thread W 3 (QEntry q) h
  = (QReturn (fst (query_notes W q h)), snd (query_notes W q h)).
Proof.
  destruct (vector_store h) as [store|] eqn:Hv.
  - rewrite (query_notes_some W q h store Hv).
    unfold run_query_thread, query_step, call. rewrite !Hv. simpl.
    destruct (similarity_search W store q 3); reflexivity.
  - rewrite (query_notes_none W q h Hv). simpl. rewrite Hv. reflexivity.
Qed.

Lemma index_thread_sequential W d h :
  run_index_thread W 7 (IEntry d) h
  = (IReturn (fst (index_notes W d h)), snd (index_notes W d h)).
Proof.
  unfold index_notes, bind, try_except, call, ret, set_vector_store.
  simpl. unfold call. ask_world W d; reflexivity.
Qed.

Ltac ask W :=
  repeat (simpl; unfold after_load; simpl;
    match goal with
    | |- context [import_langchain W] =>
        destruct (import_langchain W) eqn:?
    | |- context [os_path_exists W ?d] =>
        destruct (os_path_exists W d) eqn:?
    | |- context [loader_load W ?d ?g] =>
        destruct (loader_load W d g) as [[|? ?]|?] eqn:?
    | |- context [HuggingFaceEmbeddings W ?m] =>
        destruct (HuggingFaceEmbeddings W m) eqn:?
    | |- context [FAISS_from_documents W ?a ?b] =>
        destruct (FAISS_from_documents W a b) eqn:?
    end); simpl.

(** A step of the build assigns the global at most as its last step, and
    never assigns [None]. *)
Lemma index_step_global W t h :
  vector_store (snd (index_step W t h)) = vector_store h \/
  (exists store r,
     vector_store (snd (index_step W t h)) = Some store /\
     fst (index_step W t h) = IReturn r).
Proof.
  destruct t; unfold index_step, call, set_vector_store; ask W; eauto.
Qed.

(** The build does not read the global. *)
Lemma index_step_respects W t h1 h2 :
  vector_store h1 = vector_store h2 ->
  fst (index_step W t h1) = fst (index_step W t h2) /\
  vector_store (snd (index_step W t h1))
  = vector_store (snd (index_step W t h2)).
Proof.
  intros Hv.
  destruct t; unfold index_step, call, set_vector_store; ask W; auto.
Qed.

Lemma run_index_respects W n :
  forall t h1 h2,
    vector_store h1 = vector_store h2 ->
    fst (run_index_thread W n t h1) = fst (run_index_thread W n t h2) /\
    vector_store (snd (run_index_thread W n t h1))
    = vector_store (snd (run_index_thread W n t h2)).
Proof.
  induction n as [| n IH]; intros t h1 h2 Hv; simpl; [auto |].
  destruct (index_step_respects W t h1 h2 Hv) as [Ht Hh].
  destruct (index_step W t h1) as [t1 h1'], (index_step W t h2) as [t2 h2'].
  simpl in Ht, Hh. subst t2. apply IH. exact Hh.
Qed.

Lemma run_index_returned W n :
  forall r h, run_index_thread W n (IReturn r) h = (IReturn r, h).
Proof. induction n as [| n IH]; intros r h; simpl; auto. Qed.

Lemma run_index_snoc W n :
  forall t h,
    run_index_thread W (S n) t h
    = index_step W (fst (run_index_thread W n t h))
        (snd (run_index_thread W n t h)).
Proof.
  induction n as [| n IH]; intros t h.
  - simpl. destruct (index_step W t h); reflexivity.
  - change (run_index_thread W (S (S n)) t h)
      with (let '(t', h') := index_step W t h in
            run_index_thread W (S n) t' h').
    change (run_index_thread W (S n) t h)
      with (let '(t', h') := index_step W t h in
            run_index_thread W n t' h').
    destruct (index_step W t h) as [t' h']. apply IH.
Qed.

(** Seven steps bring the build to its end from wherever it stands. *)
Lemma run_index_settles W t h :
  exists r, fst (run_index_thread W 7 t h) = IReturn r.
Proof.
  destruct t; unfold run_index_thread, index_step, call, set_vector_store;
    ask W; eauto.
Qed.

Lemma run_index_after_step W t h :
  run_index_thread W 7 (fst (index_step W t h)) (snd (index_step W t h))
  = run_index_thread W 7 t h.
Proof.
  transitivity (run_index_thread W 8 t h).
  - change (run_index_thread W 8 t h)
      with (let '(t', h') := index_step W t h in
            run_index_thread W 7 t' h').
    destruct (index_step W t h); reflexivity.
  - rewrite run_index_snoc.
    destruct (run_index_settles W t h) as [r Hr].
    destruct (run_index_thread W 7 t h) as [t7 h7]. simpl in *. subst t7.
    reflexivity.
Qed.

Lemma answer_of_heap W q h :
  fst (query_notes W q h) = answer W q (vector_store h).
Proof. apply query_notes_result_global. reflexivity. Qed.

Lemma answer_none W q : answer W q None = Val msg_not_indexed.
Proof. reflexivity. Qed.

Lemma answer_some W q store :
  answer W q (Some store) = search_result (similarity_search W store q 3) q.
Proof.
  unfold answer.
  now rewrite (query_notes_some W q
                 {| vector_store := Some store; calls := [] |} store eq_refl).
Qed.

Lemma index_inv_intro W before after t h :
  (forall r, t = IReturn r -> vector_store h = after) ->
  ((forall r, t <> IReturn r) ->
   vector_store h = before /\
   vector_store (snd (run_index_thread W 7 t h)) = after) ->
  index_inv W before after t h.
Proof.
  intros Hret Hrun.
  destruct t; try (apply Hrun; intros r; discriminate).
  eapply Hret. reflexivity.
Qed.

Lemma index_inv_running W before after t h :
  (forall r, t <> IReturn r) ->
  index_inv W before after t h ->
  vector_store h = before /\
  vector_store (snd (run_index_thread W 7 t h)) = after.
Proof.
  intros Hrun H. destruct t; try exact H. exfalso. eapply Hrun. reflexivity.
Qed.

Lemma index_inv_global W before after t h :
  index_inv W before after t h ->
  vector_store h = before \/ vector_store h = after.
Proof. destruct t; simpl; tauto. Qed.

Lemma index_inv_step W before after t h :
  index_inv W before after t h ->
  index_inv W before after (fst (index_step W t h)) (snd (index_step W t h)).
Proof.
  intros Hinv.
  assert (Hcases : (exists r, t = IReturn r) \/ (forall r, t <> IReturn r)).
  { destruct t; try (right; intros r; discriminate). left. eauto. }
  destruct Hcases as [[r ->] | Hrun]; [exact Hinv |].
  destruct (index_inv_running W before after t h Hrun Hinv) as [Hb Ha].
  pose proof (run_index_after_step W t h) as Hsame.
  apply index_inv_intro.
  - intros r Hr. rewrite <- Ha, <- Hsame, Hr, run_index_returned.
    reflexivity.
  - intros Hrun'. split.
    + destruct (index_step_global W t h) as [Hv | (store & r & _ & Hr)].
      * now rewrite Hv.
      * exfalso. exact (Hrun' r Hr).
    + now rewrite Hsame.
Qed.

Lemma index_inv_log W before after t h h' :
  vector_store h' = vector_store h ->
  index_inv W before after t h -> index_inv W before after t h'.
Proof.
  intros Hv Hinv. apply index_inv_intro.
  - intros r ->. rewrite Hv. exact Hinv.
  - intros Hrun.
    destruct (index_inv_running W before after t h Hrun Hinv) as [Hb Ha].
    split; [congruence |].
    rewrite <- Ha. apply run_index_respects. exact Hv.
Qed.

Lemma outcome_keeps_index W d h :
  vector_store h <> None -> vector_store (snd (index_notes W d h)) <> None.
Proof.
  intros Hv.
  destruct (index_notes_outcome W d h)
    as [(_ & _ & Hsame) | (docs & emb & st & _ & _ & _ & _ & _ & _ & Hst)];
    congruence.
Qed.

Lemma snapshot_inv_start W q d h :
  snapshot_inv W q (vector_store h) (vector_store (snd (index_notes W d h)))
    (start h q d).
Proof.
  unfold snapshot_inv, start. cbn [shared indexing querying].
  split; [left; reflexivity |].
  split; [apply outcome_keeps_index |].
  split; [| reflexivity].
  cbn [index_inv]. split; [reflexivity |].
  now rewrite index_thread_sequential.
Qed.

Lemma snapshot_inv_query_step W q before after h tq ti :
  snapshot_inv W q before after
    {| shared := h; querying := tq; indexing := ti |} ->
  snapshot_inv W q before after
    {| shared := snd (query_step W tq h);
       querying := fst (query_step W tq h); indexing := ti |}.
Proof.
  unfold snapshot_inv. cbn [shared querying indexing].
  intros (Hg & Hsome & Hi & Hq).
  destruct tq as [q' | q' | q' [store|] | r];
    cbn [query_step query_inv] in *.
  - subst q'. destruct (vector_store h) as [store|] eqn:Hv;
      cbn [fst snd query_inv].
    + rewrite Hv in *. repeat split; auto; discriminate.
    + rewrite Hv in *. repeat split; auto.
      rewrite <- answer_none with (W := W) (q := q).
      destruct Hg as [<- | <-]; auto.
  - destruct Hq as [-> Hne]. cbn [fst snd query_inv]. repeat split; auto.
  - destruct Hq as (-> & _ & Hst). unfold call.
    assert (Hans : search_result (similarity_search W store q 3) q
                   = answer W q before \/
                   search_result (similarity_search W store q 3) q
                   = answer W q after).
    { rewrite <- answer_some. destruct Hst as [<- | <-]; auto. }
    destruct (similarity_search W store q 3);
      cbn [fst snd query_inv vector_store search_result] in *;
      (repeat split; auto;
       eapply index_inv_log; [| exact Hi]; reflexivity).
  - destruct Hq as (_ & Hne & _). congruence.
  - cbn [fst snd query_inv]. repeat split; auto.
Qed.

Lemma snapshot_inv_index_step W q before after h tq ti :
  snapshot_inv W q before after
    {| shared := h; querying := tq; indexing := ti |} ->
  snapshot_inv W q before after
    {| shared := snd (index_step W ti h);
       querying := tq; indexing := fst (index_step W ti h) |}.
Proof.
  unfold snapshot_inv. cbn [shared querying indexing].
  intros (Hg & Hsome & Hi & Hq).
  pose proof (index_inv_step W before after ti h Hi) as Hi'.
  pose proof (index_step_global W ti h) as Hstep.
  destruct (index_step W ti h) as [ti' h']. cbn [fst snd] in *.
  split; [eapply index_inv_global; exact Hi' |].
  split; [exact Hsome |].
  split; [exact Hi' |].
  destruct tq; cbn [query_inv] in *; auto.
  destruct Hq as [-> Hne]. split; [reflexivity |].
  destruct Hstep as [Hv | (store & r & Hv & _)]; congruence.
Qed.

Lemma snapshot_inv_step W q before after turn c :
  snapshot_inv W q before after c ->
  snapshot_inv W q before after (step W turn c).
Proof.
  destruct c as [h tq ti]. intros Hinv.
  destruct turn; unfold step; cbn [shared querying indexing].
  - pose proof (snapshot_inv_query_step W q before after h tq ti Hinv) as H.
    destruct (query_step W tq h). exact H.
  - pose proof (snapshot_inv_index_step W q before after h tq ti Hinv) as H.
    destruct (index_step W ti h). exact H.
Qed.

Lemma snapshot_inv_run W q before after schedule :
  forall c,
    snapshot_inv W q before after c ->
    snapshot_inv W q before after (run_schedule W schedule c).
Proof.
  induction schedule as [| turn rest IH]; intros c Hinv; simpl; [exact Hinv |].
  apply IH, snapshot_inv_step, Hinv.
Qed.

(** Three turns are enough for a query, whatever the build does between
    them. *)
Lemma query_step_distance W t h :
  query_distance (fst (query_step W t h)) <= pred (query_distance t).
Proof.
  destruct t as [q | q | q [store|] | r]; simpl; try lia.
  - destruct (vector_store h); simpl; lia.
  - unfold call. destruct (similarity_search W store q 3); simpl; lia.
Qed.

Lemma run_schedule_query_returns W schedule :
  forall c,
    query_distance (querying c) <= query_turns schedule ->
    query_distance (querying (run_schedule W schedule c)) = 0.
Proof.
  induction schedule as [| turn rest IH]; intros c Hd; simpl in *; [lia |].
  apply IH. destruct turn; unfold step.
  - pose proof (query_step_distance W (querying c) (shared c)) as Hstep.
    destruct (query_step W (querying c) (shared c)); simpl in *. lia.
  - destruct (index_step W (indexing c) (shared c)); simpl. exact Hd.
Qed.

Lemma query_step_keeps_global W t h :
  vector_store (snd (query_step W t h)) = vector_store h.
Proof.
  destruct t as [q | q | q [store|] | r]; simpl; try reflexivity.
  - destruct (vector_store h) eqn:Hv; simpl; congruence.
  - unfold call. destruct (similarity_search W store q 3); reflexivity.
Qed.

(** Seven turns are enough for a build, whatever the query does between
    them. *)
Lemma index_step_distance W t h :
  index_distance (fst (index_step W t h)) <= pred (index_distance t).
Proof.
  destruct t; unfold index_step, call, set_vector_store; ask W; lia.
Qed.

Lemma run_schedule_index_returns W schedule :
  forall c,
    index_distance (indexing c) <= index_turns schedule ->
    index_distance (indexing (run_schedule W schedule c)) = 0.
Proof.
  induction schedule as [| turn rest IH]; intros c Hd; simpl in *; [lia |].
  apply IH. destruct turn; unfold step.
  - destruct (query_step W (querying c) (shared c)); simpl. exact Hd.
  - pose proof (index_step_distance W (indexing c) (shared c)) as Hstep.
    destruct (index_step W (indexing c) (shared c)); simpl in *. lia.
Qed.

(** What the build is going to return does not change on the way. *)
Lemma run_schedule_index_result W r0 schedule :
  forall c,
    fst (run_index_thread W 7 (indexing c) (shared c)) = IReturn r0 ->
    fst (run_index_thread W 7 (indexing (run_schedule W schedule c))
           (shared (run_schedule W schedule c))) = IReturn r0.
Proof.
  induction schedule as [| turn rest IH]; intros c Hc; [exact Hc |].
  cbn [run_schedule]. apply IH. destruct turn; unfold step.
  - pose proof (query_step_keeps_global W (querying c) (shared c)) as Hv.
    destruct (query_step W (querying c) (shared c)) as [tq hq].
    cbn [shared indexing snd] in *.
    rewrite <- Hc. apply run_index_respects. exact Hv.
  - pose proof (run_index_after_step W (indexing c) (shared c)) as Hsame.
    destruct (index_step W (indexing c) (shared c)) as [ti hi].
    cbn [shared indexing fst snd] in *. now rewrite Hsame.
Qed.

(** C9.  Let a query and a build run side by side from a heap [h], in
    any interleaving of their steps.  At every moment the global holds
    either the value it had before the build or the value the build
    publishes, which is the finished store; the build assigns it in one
    step.  Whatever the query returns is what [query_notes] returns on
    the heap before the build or on the heap after it, nothing in
    between; and a query that gets three turns does return.  The build
    publishes: as long as it has not returned the global is what it was
    before, and once it has returned -- which it has after seven turns
    -- it has returned what [index_notes] returns and the global is the
    one [index_notes] leaves, the finished store when the build
    succeeded. *)
Theorem concurrent_query_sees_one_index W h q d schedule :
  (vector_store (shared (run_schedule W schedule (start h q d)))
   = vector_store h \/
   vector_store (shared (run_schedule W schedule (start h q d)))
   = vector_store (snd (index_notes W d h))) /\
  (forall r,
     querying (run_schedule W schedule (start h q d)) = QReturn r ->
     r = fst (query_notes W q h) \/
     r = fst (query_notes W q (snd (index_notes W d h)))) /\
  (3 <= query_turns schedule ->
   exists r, querying (run_schedule W schedule (start h q d)) = QReturn r) /\
  ((forall r, indexing (run_schedule W schedule (start h q d)) <> IReturn r) ->
   vector_store (shared (run_schedule W schedule (start h q d)))
   = vector_store h) /\
  (forall r,
     indexing (run_schedule W schedule (start h q d)) = IReturn r ->
     r = fst (index_notes W d h) /\
     vector_store (shared (run_schedule W schedule (start h q d)))
     = vector_store (snd (index_notes W d h))) /\
  (7 <= index_turns schedule ->
   exists r, indexing (run_schedule W schedule (start h q d)) = IReturn r) /\
  (build_succeeded (fst (index_notes W d h)) ->
   exists docs embeddings store,
     selected W d docs /\
     HuggingFaceEmbeddings W model_name = Val embeddings /\
     FAISS_from_documents W docs embeddings = Val store /\
     vector_store (snd (index_notes W d h)) = Some store).
Proof.
  pose proof (snapshot_inv_run W q _ _ schedule _ (snapshot_inv_start W q d h))
    as (Hg & _ & Hi & Hq).
  split; [exact Hg |].
  split.
  { intros r Hr. rewrite Hr in Hq. simpl in Hq.
    rewrite !answer_of_heap. exact Hq. }
  split.
  { intros Hturns.
    pose proof (run_schedule_query_returns W schedule (start h q d) Hturns)
      as Hd.
    destruct (querying (run_schedule W schedule (start h q d)));
      simpl in Hd; try discriminate. eauto. }
  split.
  { intros Hrun. eapply index_inv_running; [exact Hrun | exact Hi]. }
  split.
  { intros r Hr. split.
    - pose proof (run_schedule_index_result W (fst (index_notes W d h))
                    schedule (start h q d)) as Hres.
      cbn [start indexing shared] in Hres.
      rewrite index_thread_sequential in Hres. specialize (Hres eq_refl).
      rewrite Hr, run_index_returned in Hres. cbn [fst] in Hres.
      now injection Hres.
    - rewrite Hr in Hi. exact Hi. }
  split.
  { intros Hturns.
    pose proof (run_schedule_index_returns W schedule (start h q d) Hturns)
      as Hd.
    destruct (indexing (run_schedule W schedule (start h q d)));
      simpl in Hd; try discriminate. eauto. }
  intros Hok.
  destruct (index_notes_outcome W d h)
    as [(_ & Hfail & _) | (docs & emb & st & Hsel & Hemb & Hst & _ & _ & _ & Hv)];
    [contradiction |].
  exists docs, emb, st. auto.
Qed.

End Properties.

(** * The properties at work on the sample world *)

Section Runs.

Local Open Scope list_scope.
Import Sample.

(** A build with the embedding model out of reach, over an index made
    earlier from [work]: the old store stays. *)
Lemma index_notes_failure_keeps_index_run :
  ~ build_succeeded (fst (index_notes world_offline "notes" (heap_with [plan])))
  /\ (vector_store (snd (index_notes world_offline "notes" (heap_with [plan])))
      = vector_store (heap_with [plan])
      /\ build_failure world_offline "notes"
           (fst (index_notes world_offline "notes" (heap_with [plan])))
      /\ (forall (W' : World (list Document) unit) q,
            fst (query_notes W' q
                   (snd (index_notes world_offline "notes" (heap_with [plan]))))
            = fst (query_notes W' q (heap_with [plan])))).
Proof.
  assert (Hfail : ~ build_succeeded
                    (fst (index_notes world_offline "notes" (heap_with [plan])))).
  { intros (n & d & H). vm_compute in H. discriminate H. }
  split; [exact Hfail |].
  exact (index_notes_failure_keeps_index world_offline "notes"
           (heap_with [plan]) Hfail).
Defined.

(** A session of a query and two failed builds, then a query. *)
Lemma query_before_any_build_run :
  Forall (fun r => ~ build_succeeded r)
         (fst (run_session quiet_session initial_heap))
  /\ (query_notes world "hello" (snd (run_session quiet_session initial_heap))
      = (Val msg_not_indexed, snd (run_session quiet_session initial_heap))
      /\ no_store_access
           (new_calls (snd (run_session quiet_session initial_heap))
              (snd (query_notes world "hello"
                      (snd (run_session quiet_session initial_heap)))))).
Proof.
  assert (Hall : Forall (fun r => ~ build_succeeded r)
                   (fst (run_session quiet_session initial_heap))).
  { vm_compute. repeat constructor; intros (n & d & H); discriminate H. }
  split; [exact Hall |].
  exact (query_before_any_build quiet_session world "hello" Hall).
Defined.

(** [notes] indexed, then [work]: only [plan] is left. *)
Lemma rebuild_replaces_index_run :
  vector_store
    (snd (index_notes world "work" (snd (index_notes world "notes" initial_heap))))
  = Some [plan].
Proof.
  assert (H1 : build_succeeded (fst (index_notes world "notes" initial_heap))).
  { exists 1, "notes"%string. vm_compute. reflexivity. }
  assert (H2 : build_succeeded
                 (fst (index_notes world "work"
                         (snd (index_notes world "notes" initial_heap))))).
  { exists 1, "work"%string. vm_compute. reflexivity. }
  destruct (rebuild_replaces_index world world "notes" "work" initial_heap H1 H2)
    as [_ Hany].
  rewrite (Hany initial_heap). vm_compute. reflexivity.
Defined.

(** [work] holds no [.md] file: the [.txt] filter is tried. *)
Lemma index_notes_fallback_policy_run :
  In (EvLoad "work" txt_glob)
     (new_calls initial_heap (snd (index_notes world "work" initial_heap)))
  /\ selected world "work" [plan]
  /\ index_notes world "work" initial_heap
     = (Val (msg_indexed 1 "work"),
        {| vector_store := Some [plan];
           calls := build_log world "work" [plan] |}).
Proof.
  destruct (index_notes_fallback_policy world "work" initial_heap
              eq_refl eq_refl) as (_ & Htxt & Hdocs & _ & _ & Hpublished).
  assert (Hsel : selected world "work" [plan]).
  { apply Hdocs. vm_compute. auto 10. }
  split; [apply Htxt; reflexivity |].
  split; [exact Hsel |].
  exact (Hpublished [plan] tt [plan] Hsel eq_refl eq_refl).
Defined.

Lemma query_notes_renders_snippets_run :
  fst (query_notes world "x" (heap_with [readme]))
  = Val (results_header "x" ++ blocks [readme])%string.
Proof.
  exact (proj1 (query_notes_renders_snippets world "x" (heap_with [readme])
                  [readme] [readme] eq_refl eq_refl)).
Defined.

Lemma query_notes_searches_top_3_run :
  In (EvSearch [readme] "x" 3)
     (new_calls (heap_with [readme])
        (snd (query_notes world "x" (heap_with [readme]))))
  /\ (3 = 3 /\ "x"%string = "x"%string
      /\ vector_store (heap_with [readme]) = Some [readme]).
Proof.
  assert (Hin : In (EvSearch [readme] "x" 3)
                  (new_calls (heap_with [readme])
                     (snd (query_notes world "x" (heap_with [readme]))))).
  { vm_compute. left. reflexivity. }
  split; [exact Hin |].
  exact (query_notes_searches_top_3 world "x" (heap_with [readme])
           [readme] "x" 3 Hin).
Defined.

(** The query tests the global, the build runs to its end, the query
    goes on: it searches the new store. *)
Lemma concurrent_query_sees_one_index_run :
  3 <= query_turns build_overtakes
  /\ 7 <= index_turns build_overtakes
  /\ (exists r,
        querying (run_schedule world build_overtakes
                    (start (heap_with [plan]) "x" "notes")) = QReturn r
        /\ (r = fst (query_notes world "x" (heap_with [plan])) \/
            r = fst (query_notes world "x"
                       (snd (index_notes world "notes" (heap_with [plan]))))))
  /\ vector_store
       (shared (run_schedule world build_overtakes
                  (start (heap_with [plan]) "x" "notes")))
     = Some [readme].
Proof.
  assert (Hturns : 3 <= query_turns build_overtakes).
  { vm_compute. lia. }
  assert (Hturns' : 7 <= index_turns build_overtakes).
  { vm_compute. lia. }
  split; [exact Hturns |]. split; [exact Hturns' |].
  destruct (concurrent_query_sees_one_index world (heap_with [plan]) "x"
              "notes" build_overtakes)
    as (_ & Hsees & Hreturns & _ & Hdone & Hbuilt & _).
  split.
  - destruct (Hreturns Hturns) as [r Hr].
    exists r. split; [exact Hr | exact (Hsees r Hr)].
  - destruct (Hbuilt Hturns') as [r Hr].
    destruct (Hdone r Hr) as [_ Hstore].
    rewrite Hstore. vm_compute. reflexivity.
Defined.

(** ** Where the code departs from the specification *)

(** C5.  The empty query is not rejected: with an index in place it is
    passed to the store, and the results are listed. *)
Lemma empty_query_is_searched :
  query_notes world "" (heap_with [readme])
  = (Val (results_header "" ++ block readme)%string,
     {| vector_store := Some [readme];
        calls := [EvSearch [readme] "" 3] |})
  /\ ~ no_store_access
         (new_calls (heap_with [readme])
            (snd (query_notes world "" (heap_with [readme])))).
Proof.
  split.
  - vm_compute. reflexivity.
  - intros Hnone. apply (Hnone [readme] ""%string 3).
    vm_compute. left. reflexivity.
Qed.

(** C6.  A two-character text is not truncated, and is rendered with the
    ellipsis marker all the same. *)
Lemma short_text_gets_ellipsis :
  String.length (page_content readme) <= 500
  /\ fst (query_notes world "x" (heap_with [readme]))
     = Val (results_header "x" ++ "--- Source: notes/readme.md ---" ++ nl
              ++ "hi..." ++ nl ++ nl)%string
  /\ fst (query_notes world "x" (heap_with [readme]))
     <> Val (results_header "x" ++ block_spec readme)%string.
Proof.
  split; [vm_compute; lia |].
  split; [vm_compute; reflexivity |].
  intros H. vm_compute in H. discriminate H.
Qed.

(** C7.  No call of [query_notes] searches for another number of results
    than 3: there is no argument to ask for it. *)
Lemma query_notes_count_is_fixed :
  ~ exists (W : World (list Document) unit) h q store q' k,
      k <> 3 /\
      In (EvSearch store q' k) (new_calls h (snd (query_notes W q h))).
Proof.
  intros (W & h & q & store & q' & k & Hk & Hin).
  rewrite query_notes_calls in Hin.
  destruct (vector_store h); simpl in Hin; [| exact Hin].
  destruct Hin as [Heq | []]. injection Heq as _ _ Hk'. congruence.
Qed.

(** C8.  Without the langchain packages the imports of [index_notes]
    raise before its [try] block is entered, and the exception leaves the
    tool. *)
Lemma index_notes_import_error_escapes :
  index_notes world_without_langchain "notes" initial_heap
  = (Raise {| exc_type := "ModuleNotFoundError";
              exc_str := "No module named 'langchain_community'" |},
     {| vector_store := None; calls := [EvImport] |})
  /\ ~ exists msg,
         fst (index_notes world_without_langchain "notes" initial_heap)
         = Val msg.
Proof.
  split.
  - vm_compute. reflexivity.
  - intros [msg H]. vm_compute in H. discriminate H.
Qed.

End Runs.

(** * Further properties of the note index *)

Section IndexProperties.

Local Open Scope list_scope.

Context {Store Embeddings : Type}.
Implicit Types (W : World Store Embeddings) (h : Heap Store).

Ltac answers W d :=
  unfold index_notes, bind, try_except, call, ret, set_vector_store; simpl;
  destruct (import_langchain W) as [?e|] eqn:Himp; simpl;
  [| destruct (os_path_exists W d) eqn:Hex; simpl;
     [ destruct (loader_load W d md_glob) as [[|? ?]|?e] eqn:Hmd; simpl;
       [ destruct (loader_load W d txt_glob) as [[|? ?]|?e] eqn:Htxt; simpl
       | | ];
       match goal with
       | |- context [HuggingFaceEmbeddings W model_name] =>
           destruct (HuggingFaceEmbeddings W model_name)
             as [emb|?e] eqn:Hemb; simpl;
           [ match goal with
             | |- context [FAISS_from_documents W ?docs emb] =>
                 destruct (FAISS_from_documents W docs emb)
                   as [st|?e] eqn:Hst; simpl
             end
           | ]
       | _ => idtac
       end
     | ] ].

Ltac logged :=
  simpl; rewrite <- ?app_assoc;
  erewrite new_calls_app by (simpl; reflexivity); simpl.

Lemma run_session_app (s1 s2 : list (World Store Embeddings * ToolCall)) :
  forall h,
    snd (run_session (s1 ++ s2) h)
    = snd (run_session s2 (snd (run_session s1 h))).
Proof.
  induction s1 as [| [W c] s1 IH]; intros h; [reflexivity |].
  change (((W, c) :: s1) ++ s2) with ((W, c) :: (s1 ++ s2)).
  rewrite !run_session_cons. cbn [snd]. apply IH.
Qed.

(** X1.  The index a session ends with is the one of its last successful
    build: when a build succeeds and no later call of the session is a
    successful build, the global holds the store made from the documents
    that build selected, and every query made afterwards is answered by
    a search of that store. *)
Theorem session_holds_last_successful_build
    (s1 s2 : list (World Store Embeddings * ToolCall)) W d h :
  build_succeeded (fst (index_notes W d (snd (run_session s1 h)))) ->
  Forall (fun r => ~ build_succeeded r)
    (fst (run_session s2 (snd (index_notes W d (snd (run_session s1 h)))))) ->
  exists docs embeddings store,
    selected W d docs /\
    HuggingFaceEmbeddings W model_name = Val embeddings /\
    FAISS_from_documents W docs embeddings = Val store /\
    vector_store (snd (run_session (s1 ++ (W, IndexNotes d) :: s2) h))
    = Some store /\
    (forall W' q,
       fst (query_notes W' q
              (snd (run_session (s1 ++ (W, IndexNotes d) :: s2) h)))
       = search_result (similarity_search W' store q 3) q).
Proof.
  intros Hok Hquiet.
  set (h1 := snd (run_session s1 h)) in *.
  destruct (index_notes_outcome W d h1)
    as [(_ & Hfail & _)
       | (docs & emb & st & Hsel & Hemb & Hst & _ & _ & _ & Hv)];
    [contradiction |].
  assert (Hend : vector_store
                   (snd (run_session (s1 ++ (W, IndexNotes d) :: s2) h))
                 = Some st).
  { rewrite run_session_app, run_session_cons. cbn [snd run_tool].
    fold h1.
    rewrite (session_without_success_keeps_global s2 _ Hquiet). exact Hv. }
  exists docs, emb, st.
  split; [exact Hsel |]. split; [exact Hemb |]. split; [exact Hst |].
  split; [exact Hend |].
  intros W' q. now rewrite (query_notes_some W' q _ st Hend).
Qed.

(** X2.  A build never reads the global: its result and the calls it
    makes are the same from any two heaps, and when it succeeds the
    store it publishes is the same.  Indexing the same directory twice
    in an unchanged world therefore gives the same index as indexing it
    once. *)
Theorem index_notes_ignores_heap W d h1 h2 :
  fst (index_notes W d h1) = fst (index_notes W d h2) /\
  new_calls h1 (snd (index_notes W d h1))
  = new_calls h2 (snd (index_notes W d h2)) /\
  (build_succeeded (fst (index_notes W d h1)) ->
   vector_store (snd (index_notes W d h1))
   = vector_store (snd (index_notes W d h2))) /\
  vector_store (snd (index_notes W d (snd (index_notes W d h1))))
  = vector_store (snd (index_notes W d h1)).
Proof.
  split; [| split; [| split]].
  - answers W d; reflexivity.
  - answers W d; logged; symmetry; logged; reflexivity.
  - answers W d; intros (n & d' & H); try discriminate H; reflexivity.
  - answers W d; reflexivity.
Qed.

(** X3.  A build touches the file system and the embedding model only as
    far as it has to: nothing is loaded from a directory that does not
    exist, and the embedding model is instantiated, and FAISS called,
    only once there are documents to index. *)
Theorem index_notes_loads_only_when_needed W d h :
  (forall path glob,
     In (EvLoad path glob) (new_calls h (snd (index_notes W d h))) ->
     path = d /\ os_path_exists W d = true) /\
  (forall m,
     In (EvEmbeddings m) (new_calls h (snd (index_notes W d h))) ->
     m = model_name /\ exists docs, selected W d docs) /\
  (forall docs,
     In (EvFromDocuments docs) (new_calls h (snd (index_notes W d h))) ->
     exists embeddings, HuggingFaceEmbeddings W model_name = Val embeddings).
Proof.
  split; [| split].
  - intros path glob. answers W d; logged; intros Hin;
      intuition (try discriminate);
      match goal with
      | H : EvLoad _ _ = EvLoad _ _ |- _ => injection H as <- _; reflexivity
      end.
  - intros m. answers W d; logged; intros Hin;
      intuition (try discriminate);
      match goal with
      | H : EvEmbeddings _ = EvEmbeddings _ |- _ =>
          injection H as <-; reflexivity
      | |- exists _, _ =>
          eexists; first [eapply selected_md; eassumption
                         | eapply selected_txt; eassumption]
      end.
  - intros docs. answers W d; logged; intros Hin;
      intuition (try discriminate); eauto.
Qed.

(** X4.  The two tools keep to their own collaborators: a build never
    searches a store, and the only call a query ever makes is one
    search. *)
Theorem tools_keep_to_their_collaborators W h :
  (forall d, no_store_access (new_calls h (snd (index_notes W d h)))) /\
  (forall q ev,
     In ev (new_calls h (snd (query_notes W q h))) ->
     exists store, ev = EvSearch store q 3) /\
  (forall q, length (new_calls h (snd (query_notes W q h))) <= 1).
Proof.
  split; [| split].
  - intros d store q k. answers W d; logged; intros Hin;
      intuition discriminate.
  - intros q ev. rewrite query_notes_calls.
    destruct (vector_store h) as [store|]; simpl; [| tauto].
    intros [<- | []]. eauto.
  - intros q. rewrite query_notes_calls.
    destruct (vector_store h); simpl; lia.
Qed.

Lemma str_replace_clears old new s :
  old <> new -> str_has old (str_replace old new s) = false.
Proof.
  intros Hne. induction s as [| c s IH]; [reflexivity |].
  cbn [str_replace str_has]. rewrite IH, orb_false_r.
  destruct (Ascii.eqb_spec c old) as [-> | Hc].
  - apply Ascii.eqb_neq. congruence.
  - apply Ascii.eqb_neq. exact Hc.
Qed.

Lemma str_count_app c a b :
  str_count c (a ++ b)%string = str_count c a + str_count c b.
Proof.
  induction a as [| x a IH]; [reflexivity |].
  change (String x a ++ b)%string with (String x (a ++ b)%string).
  cbn [str_count]. rewrite IH. lia.
Qed.

Lemma str_has_count c s : str_has c s = false -> str_count c s = 0.
Proof.
  induction s as [| x s IH]; [reflexivity |].
  cbn [str_has str_count]. intros H.
  apply orb_false_iff in H as [Hx Hs]. rewrite Hx, (IH Hs). reflexivity.
Qed.

(** X5.  No line feed of a chunk reaches the output: a snippet contains
    none, so that a result whose source path has no line feed takes
    exactly two lines of the output, followed by one empty line. *)
Theorem block_takes_two_lines doc :
  str_has LF (snippet doc) = false /\
  (str_has LF (dict_get (metadata doc) "source" "Unknown") = false ->
   str_count LF (block doc) = 3).
Proof.
  assert (Hs : str_has LF (snippet doc) = false).
  { unfold snippet. apply str_replace_clears. discriminate. }
  split; [exact Hs |].
  intros Hsrc. unfold block.
  rewrite !str_count_app, (str_has_count _ _ Hs), (str_has_count _ _ Hsrc).
  reflexivity.
Qed.

End IndexProperties.

(** * Properties of the desktop tools *)

Section DesktopProperties.

Local Open Scope list_scope.
Import Desktop.

Implicit Types (W : Desktop.World) (t : list Action) (a : Action).

Lemma new_actions_app t (added : list Action) :
  new_actions t (t ++ added) = added.
Proof.
  unfold new_actions. induction t as [| x t IH]; simpl; auto.
Qed.

Lemma repeat_snoc {A} (x : A) n : repeat x n ++ [x] = x :: repeat x n.
Proof. induction n as [| n IH]; simpl; [reflexivity | now rewrite IH]. Qed.

(** Case analysis on the next library call of the goal. *)
Ltac case_raise :=
  match goal with
  | |- context [raises ?W ?t ?a] => destruct (raises W t a) eqn:?
  end.

(** ** Loops *)

(** A loop over one library call runs to its end, or stops at the first
    call that raises. *)
Lemma for_range_cases {A} W a (answer : list Action -> A) n :
  forall t,
    (for_range n (ask W a answer) t = (Val tt, t ++ repeat a n) /\
     forall i, i < n -> raises W (t ++ repeat a i) a = None)
    \/
    (exists j e,
       j < n /\
       for_range n (ask W a answer) t = (Raise e, t ++ repeat a (S j)) /\
       raises W (t ++ repeat a j) a = Some e /\
       forall i, i < j -> raises W (t ++ repeat a i) a = None).
Proof.
  induction n as [| n IH]; intros t.
  - left. split; [simpl; now rewrite app_nil_r | intros i Hi; lia].
  - assert (Hstep : for_range (S n) (ask W a answer) t
                    = match raises W t a with
                      | None => for_range n (ask W a answer) (t ++ [a])
                      | Some e => (Raise e, t ++ [a])
                      end).
    { cbn [for_range]. unfold Desktop.bind. unfold ask at 1.
      destruct (raises W t a); reflexivity. }
    rewrite Hstep. clear Hstep.
    destruct (raises W t a) as [e |] eqn:Hfirst.
    + right. exists 0, e. simpl. rewrite app_nil_r.
      split; [lia |]. split; [reflexivity |]. split; [exact Hfirst |].
      intros i Hi. lia.
    + assert (Hshift : forall i,
                 (t ++ [a]) ++ repeat a i = t ++ repeat a (S i)).
      { intros i. rewrite <- app_assoc. reflexivity. }
      destruct (IH (t ++ [a])) as [[Hrun Hnone] | (j & e & Hj & Hrun & He & Hnone)].
      * left. rewrite Hrun, Hshift. split; [reflexivity |].
        intros [| i] Hi; [simpl; now rewrite app_nil_r |].
        rewrite <- Hshift. apply Hnone. lia.
      * right. exists (S j), e. rewrite Hrun, Hshift.
        split; [lia |]. split; [reflexivity |].
        split; [now rewrite <- Hshift |].
        intros [| i] Hi; [simpl; now rewrite app_nil_r |].
        rewrite <- Hshift. apply Hnone. lia.
Qed.

Lemma for_range_runs {A} W a (answer : list Action -> A) n t :
  (forall i, i < n -> raises W (t ++ repeat a i) a = None) ->
  for_range n (ask W a answer) t = (Val tt, t ++ repeat a n).
Proof.
  intros Hnone.
  destruct (for_range_cases W a answer n t)
    as [[Hrun _] | (j & e & Hj & _ & He & _)]; [exact Hrun |].
  rewrite (Hnone j Hj) in He. discriminate He.
Qed.

Lemma for_range_stops {A} W a (answer : list Action -> A) n t j e :
  j < n ->
  (forall i, i < j -> raises W (t ++ repeat a i) a = None) ->
  raises W (t ++ repeat a j) a = Some e ->
  for_range n (ask W a answer) t = (Raise e, t ++ repeat a (S j)).
Proof.
  intros Hj Hnone He.
  destruct (for_range_cases W a answer n t)
    as [[_ Hall] | (j' & e' & Hj' & Hrun & He' & Hnone')].
  - rewrite (Hall j Hj) in He. discriminate He.
  - destruct (Nat.lt_trichotomy j j') as [Hlt | [<- | Hgt]].
    + rewrite (Hnone' j Hlt) in He. discriminate He.
    + rewrite He in He'. injection He' as <-. exact Hrun.
    + rewrite (Hnone j' Hgt) in He'. discriminate He'.
Qed.

(** ** [volume_control] *)

Lemma volume_key_not_mute action key :
  volume_key action = Some key -> String.eqb action "mute" = false.
Proof.
  unfold volume_key. intros H.
  destruct (String.eqb_spec action "mute") as [-> |]; [discriminate H | reflexivity].
Qed.

(** X6.  When [volume_control] reports "Volume <action> by <steps>
    steps", the action was [up] or [down] and the volume key was pressed
    as many times as [range(steps)] has elements: [steps] times for a
    positive count, and not at all for zero or a negative one. *)
Theorem volume_control_presses W action steps t :
  fst (volume_control W action steps t) = Val (msg_volume action steps) ->
  exists key,
    volume_key action = Some key /\
    snd (volume_control W action steps t)
    = t ++ Import "pywinauto.keyboard"
        :: repeat (SendKeys key) (Z.to_nat steps).
Proof.
  destruct (volume_control W action steps t) as [r t'] eqn:Hout.
  cbn [fst snd]. intros ->. revert Hout.
  unfold volume_control, Desktop.bind, Desktop.try_except, perform, Desktop.ret.
  unfold ask at 1.
  destruct (raises W t (Import "pywinauto.keyboard")); [discriminate |].
  destruct (String.eqb action "mute").
  { unfold ask. case_raise; discriminate. }
  destruct (volume_key action) as [key |]; [| discriminate].
  destruct (for_range_cases W (SendKeys key) (fun _ => tt) (Z.to_nat steps)
              (t ++ [Import "pywinauto.keyboard"]))
    as [[Hrun _] | (j & e & _ & Hrun & _)];
    rewrite Hrun; intros Hout; [| discriminate Hout].
  injection Hout as <-.
  exists key. split; [reflexivity |]. now rewrite <- app_assoc.
Qed.

(** X7.  If the volume key is refused at the press number [j + 1] of
    the [steps] that were asked for, the loop stops there: [j + 1]
    presses were attempted, none follows, and the exception comes back
    as the failure message. *)
Theorem volume_control_interrupted W action steps t key j e :
  volume_key action = Some key ->
  raises W t (Import "pywinauto.keyboard") = None ->
  j < Z.to_nat steps ->
  (forall i, i < j ->
     raises W ((t ++ [Import "pywinauto.keyboard"]) ++ repeat (SendKeys key) i)
       (SendKeys key) = None) ->
  raises W ((t ++ [Import "pywinauto.keyboard"]) ++ repeat (SendKeys key) j)
    (SendKeys key) = Some e ->
  volume_control W action steps t
  = (Val (msg_volume_failed action e),
     t ++ Import "pywinauto.keyboard" :: repeat (SendKeys key) (S j)).
Proof.
  intros Hkey Himp Hj Hnone He.
  unfold volume_control, Desktop.bind, Desktop.try_except, perform, Desktop.ret.
  unfold ask at 1. rewrite Himp, (volume_key_not_mute action key Hkey), Hkey.
  rewrite (for_range_stops W (SendKeys key) (fun _ => tt) (Z.to_nat steps)
             _ j e Hj Hnone He).
  now rewrite <- app_assoc.
Qed.

(** X8.  The inputs on which [volume_control] presses no volume key or
    ignores the count.  With zero or a negative count nothing is pressed
    and the call still reports the change; [mute] presses the mute key
    once whatever the count is; any other action is answered as unknown
    without a key press. *)
Theorem volume_control_edge_inputs W action steps t :
  raises W t (Import "pywinauto.keyboard") = None ->
  (forall key, volume_key action = Some key -> (steps <= 0)%Z ->
     volume_control W action steps t
     = (Val (msg_volume action steps), t ++ [Import "pywinauto.keyboard"])) /\
  (forall steps',
     volume_control W "mute" steps t = volume_control W "mute" steps' t /\
     snd (volume_control W "mute" steps t)
     = t ++ [Import "pywinauto.keyboard"; SendKeys "{VOLUME_MUTE}"]) /\
  (action <> "mute"%string -> volume_key action = None ->
     volume_control W action steps t
     = (Val (msg_volume_unknown action), t ++ [Import "pywinauto.keyboard"])).
Proof.
  intros Himp. split; [| split].
  - intros key Hkey Hsteps.
    unfold volume_control, Desktop.bind, Desktop.try_except, perform, Desktop.ret.
    unfold ask at 1. rewrite Himp, (volume_key_not_mute action key Hkey), Hkey.
    replace (Z.to_nat steps) with 0 by lia. reflexivity.
  - intros steps'. split; [reflexivity |].
    unfold volume_control, Desktop.bind, Desktop.try_except, perform, Desktop.ret, ask.
    rewrite Himp. cbn [String.eqb Ascii.eqb Bool.eqb].
    case_raise; simpl; now rewrite <- app_assoc.
  - intros Hmute Hkey.
    unfold volume_control, Desktop.bind, Desktop.try_except, perform, Desktop.ret.
    unfold ask at 1. rewrite Himp, Hkey.
    destruct (String.eqb_spec action "mute"); [contradiction | reflexivity].
Qed.

(** ** [media_control] *)

(** X9.  [media_control] presses the media key of the action, one of
    the four of [media_keys] -- Play/Pause, Next, Previous, Stop -- once,
    and answers that it executed the action, or that it failed when the
    key press is refused; for any other text it presses no key and
    answers that the action is unknown. *)
Theorem media_control_keys W action t :
  raises W t (Import "pywinauto.keyboard") = None ->
  (forall key,
     In (action, key) media_keys ->
     media_control W action t
     = (match raises W (t ++ [Import "pywinauto.keyboard"]) (SendKeys key) with
        | None => Val ("Executed media action: " ++ action)%string
        | Some e =>
            Val ("Failed to execute media action '" ++ action ++ "': "
                 ++ exc_str e)%string
        end,
        t ++ [Import "pywinauto.keyboard"; SendKeys key])) /\
  (~ In action media_actions ->
   media_control W action t
   = (Val ("Unknown media action: " ++ action)%string,
      t ++ [Import "pywinauto.keyboard"])).
Proof.
  intros Himp. split.
  - intros key Hin.
    unfold media_control, Desktop.bind, Desktop.try_except, perform, Desktop.ret.
    unfold ask at 1. rewrite Himp.
    simpl in Hin.
    destruct Hin as [[= <- <-] | [[= <- <-] | [[= <- <-] | [[= <- <-] | []]]]];
      cbn [String.eqb Ascii.eqb Bool.eqb]; unfold ask;
      case_raise; simpl; rewrite <- app_assoc; reflexivity.
  - intros Hout.
    unfold media_control, Desktop.bind, Desktop.try_except, perform, Desktop.ret.
    unfold ask at 1. rewrite Himp.
    repeat match goal with
           | |- context [String.eqb action ?name] =>
               destruct (String.eqb_spec action name) as [-> |];
                 [exfalso; apply Hout; simpl; tauto |]
           end.
    reflexivity.
Qed.

(** ** Strings *)

Lemma chr_lower_idem c : chr_lower (chr_lower c) = chr_lower c.
Proof. destruct c as [[] [] [] [] [] [] [] []]; reflexivity. Qed.

Lemma chr_isspace_lower c : chr_isspace (chr_lower c) = chr_isspace c.
Proof. destruct c as [[] [] [] [] [] [] [] []]; reflexivity. Qed.

Lemma chr_lower_plus c : Ascii.eqb (chr_lower c) "+" = Ascii.eqb c "+".
Proof. destruct c as [[] [] [] [] [] [] [] []]; reflexivity. Qed.

Lemma str_lower_idem s : str_lower (str_lower s) = str_lower s.
Proof.
  induction s as [| c s IH]; [reflexivity |].
  cbn [str_lower]. now rewrite chr_lower_idem, IH.
Qed.

Lemma str_lstrip_lower s : str_lstrip (str_lower s) = str_lower (str_lstrip s).
Proof.
  induction s as [| c s IH]; [reflexivity |].
  cbn [str_lower str_lstrip]. rewrite chr_isspace_lower.
  destruct (chr_isspace c); [exact IH | reflexivity].
Qed.

Lemma str_rstrip_lower s : str_rstrip (str_lower s) = str_lower (str_rstrip s).
Proof.
  induction s as [| c s IH]; [reflexivity |].
  cbn [str_lower str_rstrip]. rewrite IH, chr_isspace_lower.
  destruct (str_rstrip s); cbn [str_lower]; [| reflexivity].
  destruct (chr_isspace c); reflexivity.
Qed.

Lemma str_strip_lower s : str_strip (str_lower s) = str_lower (str_strip s).
Proof. unfold str_strip. now rewrite str_lstrip_lower, str_rstrip_lower. Qed.

Lemma str_lstrip_clean s : starts_clean (str_lstrip s).
Proof.
  induction s as [| c s IH]; [exact I |].
  cbn [str_lstrip]. destruct (chr_isspace c) eqn:Hc; [exact IH | exact Hc].
Qed.

Lemma starts_clean_lstrip s : starts_clean s -> str_lstrip s = s.
Proof.
  destruct s as [| c s]; [reflexivity |].
  cbn [starts_clean str_lstrip]. now intros ->.
Qed.

Lemma str_rstrip_clean s : starts_clean s -> starts_clean (str_rstrip s).
Proof.
  destruct s as [| c s]; [intros _; exact I |].
  cbn [starts_clean str_rstrip]. intros Hc.
  destruct (str_rstrip s); [rewrite Hc |]; exact Hc.
Qed.

Lemma str_rstrip_step c s :
  str_rstrip (String c s)
  = match str_rstrip s with
    | EmptyString => if chr_isspace c then EmptyString else String c EmptyString
    | r => String c r
    end.
Proof. reflexivity. Qed.

Lemma str_rstrip_idem s : str_rstrip (str_rstrip s) = str_rstrip s.
Proof.
  induction s as [| c s IH]; [reflexivity |].
  rewrite str_rstrip_step. destruct (str_rstrip s) as [| x r] eqn:Hr.
  - destruct (chr_isspace c) eqn:Hc; [reflexivity |].
    rewrite str_rstrip_step. cbn [str_rstrip]. now rewrite Hc.
  - rewrite str_rstrip_step, IH. reflexivity.
Qed.

Lemma str_strip_idem s : str_strip (str_strip s) = str_strip s.
Proof.
  unfold str_strip.
  rewrite (starts_clean_lstrip (str_rstrip (str_lstrip s))).
  - apply str_rstrip_idem.
  - apply str_rstrip_clean, str_lstrip_clean.
Qed.

Lemma str_has_lower_plus s : str_has "+" (str_lower s) = str_has "+" s.
Proof.
  induction s as [| c s IH]; [reflexivity |].
  cbn [str_lower str_has]. now rewrite chr_lower_plus, IH.
Qed.

Lemma str_has_lstrip c s : str_has c s = false -> str_has c (str_lstrip s) = false.
Proof.
  induction s as [| x s IH]; [reflexivity |].
  cbn [str_lstrip]. destruct (chr_isspace x); [| tauto].
  cbn [str_has]. intros H. apply orb_false_iff in H as [_ H]. auto.
Qed.

Lemma str_has_rstrip c s : str_has c s = false -> str_has c (str_rstrip s) = false.
Proof.
  induction s as [| x s IH]; [reflexivity |].
  cbn [str_rstrip str_has]. intros H.
  apply orb_false_iff in H as [Hx Hs]. specialize (IH Hs).
  destruct (str_rstrip s).
  - destruct (chr_isspace x); [reflexivity |].
    cbn [str_has]. now rewrite Hx.
  - cbn [str_has] in *. now rewrite Hx, IH.
Qed.

Lemma str_split_nonempty sep s : str_split sep s <> [].
Proof.
  destruct s as [| c s]; [discriminate |].
  cbn [str_split]. destruct (Ascii.eqb c sep); [discriminate |].
  destruct (str_split sep s); discriminate.
Qed.


Lemma str_split_parts sep s :
  Forall (fun part => str_has sep part = false) (str_split sep s).
Proof.
  induction s as [| c s IH]; [repeat constructor |].
  cbn [str_split]. destruct (Ascii.eqb c sep) eqn:Hc.
  - constructor; [reflexivity | exact IH].
  - destruct (str_split sep s) as [| first rest].
    + repeat constructor. cbn [str_has]. now rewrite Hc.
    + inversion IH as [| ? ? Hfirst Hrest]; subst.
      constructor; [| exact Hrest]. cbn [str_has]. now rewrite Hc, Hfirst.
Qed.


Lemma str_split_clean sep part :
  str_has sep part = false -> str_split sep part = [part].
Proof.
  induction part as [| c part IH]; [reflexivity |].
  cbn [str_has str_split]. intros H.
  apply orb_false_iff in H as [Hc Hpart]. now rewrite Hc, (IH Hpart).
Qed.

Lemma str_split_app sep part s :
  str_has sep part = false ->
  str_split sep (part ++ String sep s)%string = part :: str_split sep s.
Proof.
  induction part as [| c part IH].
  - intros _. change (str_split sep (String sep s) = "" :: str_split sep s)%string.
    cbn [str_split]. now rewrite Ascii.eqb_refl.
  - cbn [str_has]. intros H. apply orb_false_iff in H as [Hc Hpart].
    change (String c part ++ String sep s)%string
      with (String c (part ++ String sep s)%string).
    cbn [str_split]. now rewrite Hc, (IH Hpart).
Qed.

Lemma str_split_join sep parts :
  parts <> [] ->
  Forall (fun part => str_has sep part = false) parts ->
  str_split sep (str_join sep parts) = parts.
Proof.
  induction parts as [| part rest IH]; [congruence |].
  intros _ Hall. inversion Hall as [| ? ? Hpart Hrest]; subst.
  destruct rest as [| next rest].
  - cbn [str_join]. now apply str_split_clean.
  - cbn [str_join]. rewrite (str_split_app sep part _ Hpart).
    f_equal. apply IH; [discriminate | exact Hrest].
Qed.

(** ** [press_hotkey] *)

Lemma key_list_names keys : Forall key_name (key_list keys).
Proof.
  unfold key_list. apply List.Forall_map.
  eapply List.Forall_impl; [| apply (str_split_parts "+" keys)].
  intros part Hpart. unfold key_name. repeat split.
  - rewrite str_has_lower_plus. unfold str_strip.
    now apply str_has_rstrip, str_has_lstrip.
  - apply str_lower_idem.
  - now rewrite str_strip_lower, str_strip_idem.
Qed.







Lemma key_list_normal keys :
  key_list (str_join "+" (key_list keys)) = key_list keys.
Proof.
  pose proof (key_list_names keys) as Hnames.
  unfold key_list at 1. rewrite str_split_join.
  - induction Hnames as [| k ks (_ & Hlow & Hstrip) _ IH]; [reflexivity |].
    cbn [map]. now rewrite Hstrip, Hlow, IH.
  - unfold key_list. intros Hnil. apply map_eq_nil in Hnil.
    exact (str_split_nonempty _ _ Hnil).
  - eapply List.Forall_impl; [| exact Hnames].
    intros k (Hplus & _). exact Hplus.
Qed.

(** X11.  Capital letters and white space around the key names make no
    difference: the keys written out again in the form [press_hotkey]
    passes them on, joined by ["+"], press the same hotkey as the
    original text. *)
Theorem press_hotkey_normal_form W keys t :
  key_list (str_join "+" (key_list keys)) = key_list keys /\
  snd (press_hotkey W (str_join "+" (key_list keys)) t)
  = snd (press_hotkey W keys t).
Proof.
  split; [apply key_list_normal |].
  unfold press_hotkey, Desktop.bind, Desktop.try_except, perform, Desktop.ret.
  rewrite key_list_normal. unfold ask.
  repeat case_raise; reflexivity.
Qed.

(** ** [focus_window] *)

Lemma filter_first {A} (p : A -> bool) l x rest :
  List.filter p l = x :: rest ->
  exists earlier later,
    l = earlier ++ x :: later /\
    Forall (fun y => p y = false) earlier /\ p x = true.
Proof.
  induction l as [| y l IH]; [discriminate |].
  cbn [List.filter]. destruct (p y) eqn:Hy.
  - intros [= -> _]. exists [], l. repeat split; auto.
  - intros H. destruct (IH H) as (earlier & later & -> & Hall & Hx).
    exists (y :: earlier), later. repeat split; auto.
Qed.

Lemma prefix_split (needle : string) : forall hay,
  String.prefix needle hay = true -> exists post, hay = (needle ++ post)%string.
Proof.
  induction needle as [| x needle IH]; intros hay H.
  - exists hay. reflexivity.
  - destruct hay as [| y hay]; [discriminate H |].
    cbn [String.prefix] in H.
    destruct (ascii_dec x y) as [-> | _]; [| discriminate H].
    destruct (IH hay H) as [post ->]. exists post. reflexivity.
Qed.

Lemma str_contains_split needle : forall haystack,
  str_contains needle haystack = true ->
  exists pre post, haystack = (pre ++ needle ++ post)%string.
Proof.
  induction haystack as [| c rest IH];
    cbn [str_contains]; intros H; apply orb_true_iff in H as [H | H].
  - destruct (prefix_split _ _ H) as [post ->]. exists ""%string, post.
    reflexivity.
  - discriminate H.
  - destruct (prefix_split _ _ H) as [post ->]. exists ""%string, post.
    reflexivity.
  - destruct (IH H) as (pre & post & ->).
    exists (String c pre), post. reflexivity.
Qed.

(** X12.  The window [focus_window] acts on is the first one, in the
    order the desktop lists them, whose title contains the text when
    both are put in lower case; it is restored only if it is minimized
    (show state 2), and no other window is restored or focused. *)
Theorem focus_window_first_match W title_substring t :
  (forall n,
     In (SetFocus n)
        (new_actions t (snd (focus_window W title_substring t))) ->
     exists w,
       first_match title_substring (windows W (t ++ [NewDesktop])) w /\
       handle w = n) /\
  (forall n,
     In (Restore n)
        (new_actions t (snd (focus_window W title_substring t))) ->
     exists w,
       first_match title_substring (windows W (t ++ [NewDesktop])) w /\
       handle w = n /\ get_show_state w = 2) /\
  (forall w,
     title_matches title_substring w = true ->
     exists pre post,
       str_lower (window_text w)
       = (pre ++ str_lower title_substring ++ post)%string).
Proof.
  assert (Hboth : forall a,
            In a (new_actions t (snd (focus_window W title_substring t))) ->
            (forall n, a = SetFocus n \/ a = Restore n ->
               exists w,
                 first_match title_substring (windows W (t ++ [NewDesktop])) w /\
                 handle w = n /\
                 (a = Restore n -> get_show_state w = 2))).
  { intros a.
    unfold focus_window, Desktop.bind, Desktop.try_except, perform, Desktop.ret.
    unfold ask at 1.
    destruct (raises W t NewDesktop).
    { simpl. rewrite new_actions_app. simpl.
      intros [<- | []] n [H | H]; discriminate H. }
    unfold ask at 1.
    destruct (raises W (t ++ [NewDesktop]) ListWindows).
    { simpl. rewrite <- app_assoc, new_actions_app. simpl.
      intros [<- | [<- | []]] n [H | H]; discriminate H. }
    destruct (List.filter (title_matches title_substring)
                (windows W (t ++ [NewDesktop]))) as [| w rest] eqn:Hf.
    { simpl. rewrite <- app_assoc, new_actions_app. simpl.
      intros [<- | [<- | []]] n [H | H]; discriminate H. }
    destruct (filter_first _ _ _ _ Hf) as (earlier & later & Hws & Hall & Hw).
    assert (Hfirst : first_match title_substring
                       (windows W (t ++ [NewDesktop])) w).
    { exists earlier, later. auto. }
    unfold ask.
    destruct (Nat.eqb_spec (get_show_state w) 2) as [Hmin | Hmin];
      repeat case_raise; simpl;
      rewrite <- ?app_assoc, new_actions_app; simpl;
      intros Hin n Ha;
      repeat (destruct Hin as [<- | Hin]; [| try contradiction]);
      destruct Ha as [Ha | Ha]; try discriminate Ha;
      injection Ha as <-; exists w; repeat split; auto; discriminate. }
  split; [| split].
  - intros n Hin.
    destruct (Hboth _ Hin n (or_introl eq_refl)) as (w & Hw & Hn & _). eauto.
  - intros n Hin.
    destruct (Hboth _ Hin n (or_intror eq_refl)) as (w & Hw & Hn & Hs). eauto.
  - intros w Hw. apply str_contains_split. exact Hw.
Qed.

(** X13.  The letter case of the text makes no difference to what
    [focus_window] does: two texts that are equal in lower case lead to
    the same actions on the same window. *)
Theorem focus_window_ignores_case W s1 s2 t :
  str_lower s1 = str_lower s2 ->
  snd (focus_window W s1 t) = snd (focus_window W s2 t).
Proof.
  intros Hlow.
  assert (Hsame : List.filter (title_matches s1)
                    (windows W (t ++ [NewDesktop]))
                  = List.filter (title_matches s2)
                      (windows W (t ++ [NewDesktop]))).
  { apply List.filter_ext. intros w. unfold title_matches. now rewrite Hlow. }
  unfold focus_window, Desktop.bind, Desktop.try_except, perform, Desktop.ret, ask.
  case_raise; simpl; [reflexivity |].
  case_raise; simpl; [reflexivity |].
  rewrite Hsame.
  destruct (List.filter (title_matches s2) (windows W (t ++ [NewDesktop])))
    as [| w rest]; simpl; [reflexivity |].
  destruct (Nat.eqb (get_show_state w) 2); simpl;
    repeat (case_raise; simpl); reflexivity.
Qed.

Lemma str_contains_empty s : str_contains "" s = true.
Proof. destruct s; reflexivity. Qed.

(** X14.  The empty text matches every title: on a machine where
    nothing goes wrong [focus_window("")] focuses the first window the
    desktop lists, whatever its title, after restoring it if it is
    minimized. *)
Theorem focus_window_empty_text W t w rest :
  (forall t' a, raises W t' a = None) ->
  windows W (t ++ [NewDesktop]) = w :: rest ->
  focus_window W "" t
  = (Val (msg_focused (window_text w)),
     t ++ [NewDesktop; ListWindows]
       ++ (if Nat.eqb (get_show_state w) 2 then [Restore (handle w)] else [])
       ++ [SetFocus (handle w)]).
Proof.
  intros Hcalm Hws.
  unfold focus_window, Desktop.bind, Desktop.try_except, perform, Desktop.ret, ask.
  rewrite !Hcalm, Hws. cbn [List.filter].
  unfold title_matches at 1. cbn [str_lower]. rewrite str_contains_empty.
  destruct (Nat.eqb (get_show_state w) 2); rewrite ?Hcalm; simpl;
    rewrite <- ?app_assoc; reflexivity.
Qed.

(** ** [play_specific_song] *)

Lemma search_query_no_space song_name :
  str_has " " (search_query song_name) = false.
Proof.
  unfold search_query.
  induction song_name as [| c s IH]; [reflexivity |].
  cbn [str_replace_with]. destruct (Ascii.eqb c " ") eqn:Hc.
  - change ("%20" ++ str_replace_with " " "%20" s)%string
      with (String "%" (String "2" (String "0"
              (str_replace_with " " "%20" s)))).
    cbn [str_has]. rewrite IH. reflexivity.
  - cbn [str_has]. now rewrite Hc, IH.
Qed.

(** X15.  The song name reaches the shell as one word: the search text
    made from it contains no space, so that the only space of the
    command is the one after [start]. *)
Theorem spotify_command_one_word song_name :
  str_has " " (search_query song_name) = false /\
  str_count " " (spotify_command song_name) = 1.
Proof.
  split; [apply search_query_no_space |].
  unfold spotify_command.
  rewrite str_count_app.
  rewrite (str_has_count _ _ (search_query_no_space song_name)).
  reflexivity.
Qed.

(** X16.  Two song names without a percent sign give the same search
    text only if they are the same name; the percent sign itself is not
    escaped. *)
Theorem search_query_injective (s1 : string) :
  forall s2,
    str_has "%" s1 = false -> str_has "%" s2 = false ->
    search_query s1 = search_query s2 -> s1 = s2.
Proof.
  unfold search_query.
  induction s1 as [| x s1 IH]; intros [| y s2] H1 H2 Heq.
  - reflexivity.
  - exfalso. cbn [str_replace_with] in Heq.
    destruct (Ascii.eqb y " "); discriminate Heq.
  - exfalso. cbn [str_replace_with] in Heq.
    destruct (Ascii.eqb x " "); discriminate Heq.
  - cbn [str_has] in H1, H2.
    apply orb_false_iff in H1 as [Hx H1].
    apply orb_false_iff in H2 as [Hy H2].
    cbn [str_replace_with] in Heq.
    destruct (Ascii.eqb_spec x " ") as [-> | Hxs],
             (Ascii.eqb_spec y " ") as [-> | Hys].
    + injection Heq as Heq. f_equal. apply IH; assumption.
    + exfalso. injection Heq as Hy' _. subst y. discriminate Hy.
    + exfalso. injection Heq as Hx' _. subst x. discriminate Hx.
    + injection Heq as -> Heq. f_equal. apply IH; assumption.
Qed.

Ltac script_prefix :=
  first [ exists 1; split; [lia | reflexivity]
        | exists 2; split; [lia | reflexivity]
        | exists 3; split; [lia | reflexivity]
        | exists 4; split; [lia | reflexivity]
        | exists 5; split; [lia | reflexivity]
        | exists 6; split; [lia | reflexivity] ].

(** X17.  [play_specific_song] goes through its steps in order and
    stops at the first that raises: what it did is always a beginning
    of import, launch of the Spotify search, wait, Tab, wait, Enter, so
    that no key is pressed unless the launch went through; when it
    reports success it did all of it. *)
Theorem play_specific_song_script W song_name t :
  (exists n,
     1 <= n <= 6 /\
     snd (play_specific_song W song_name t)
     = t ++ firstn n (song_script song_name)) /\
  (fst (play_specific_song W song_name t) = Val (msg_song song_name) ->
   snd (play_specific_song W song_name t) = t ++ song_script song_name).
Proof.
  destruct (play_specific_song W song_name t) as [r t'] eqn:Hout.
  cbn [fst snd]. revert Hout.
  unfold play_specific_song, Desktop.bind, Desktop.try_except, perform,
    Desktop.ret, ask.
  repeat (case_raise; simpl); intros [= <- <-]; rewrite <- ?app_assoc; simpl;
    (split; [script_prefix | intros H; first [discriminate H | reflexivity]]).
Qed.

(** ** [take_webcam_photo] *)

Ltac next_answer :=
  simpl; unfold Desktop.bind, Desktop.ret; simpl;
  first
    [ case_raise
    | match goal with
      | |- context [is_opened ?W ?t] => destruct (is_opened W t) eqn:?
      | |- context [fst (frame ?W ?t)] => destruct (frame W t) as [[] ?] eqn:?
      end ].

(** X18.  The camera protocol of [take_webcam_photo].  The camera is
    read at most six times.  It is released only after six reads, and a
    frame is encoded only after the release; so a read that raises
    leaves the camera unreleased.  When the camera does not open, the
    tool returns at once: nothing is read and nothing is released. *)
Theorem take_webcam_photo_protocol W t :
  count_actions is_read (new_actions t (snd (take_webcam_photo W t))) <= 6 /\
  (In Release (new_actions t (snd (take_webcam_photo W t))) ->
   count_actions is_read (new_actions t (snd (take_webcam_photo W t))) = 6) /\
  (forall ext,
     In (ImEncode ext) (new_actions t (snd (take_webcam_photo W t))) ->
     In Release (new_actions t (snd (take_webcam_photo W t)))) /\
  (fst (take_webcam_photo W t) = Val "Failed to open webcam."%string ->
   new_actions t (snd (take_webcam_photo W t))
   = [Import "cv2"; VideoCapture 0; IsOpened]) /\
  (forall img_str,
     fst (take_webcam_photo W t) = Val (msg_photo img_str) \/
     fst (take_webcam_photo W t) = Val "Failed to capture frame."%string ->
     In Release (new_actions t (snd (take_webcam_photo W t)))).
Proof.
  destruct (take_webcam_photo W t) as [r t'] eqn:Hout.
  cbn [fst snd]. revert Hout.
  unfold take_webcam_photo, Desktop.bind, Desktop.try_except, perform,
    Desktop.ret, ask.
  repeat next_answer; simpl; intros [= <- <-];
    rewrite <- ?app_assoc, new_actions_app;
    (split; [vm_compute; lia |]);
    (split; [intros Hin; simpl in Hin; intuition (try discriminate) |]);
    (split; [intros ext Hin; simpl in *; intuition (try discriminate) |]);
    (split; [intros H; first [discriminate H | reflexivity] |]);
    intros img_str [H | H]; first [discriminate H | simpl; tauto].
Qed.

(** ** [browser_navigate] *)


Ltac page_prefix :=
  first [ exists 0; reflexivity | exists 1; reflexivity
        | exists 2; reflexivity | exists 3; reflexivity
        | exists 4; reflexivity | exists 5; reflexivity
        | exists 6; reflexivity ].

(** X19.  Once Playwright has been started [browser_navigate] always
    stops it again, as its last action, whatever happens to the page in
    between.  The steps in between are a beginning of launch, new page,
    goto, title, text, close; the browser is closed only when all the
    steps before went through, so a page that fails to load leaves the
    closing to the stop of Playwright. *)
Theorem browser_navigate_cleanup W url t :
  raises W t (Import "playwright.sync_api") = None ->
  raises W (t ++ [Import "playwright.sync_api"]) PlaywrightStart = None ->
  exists steps,
    snd (browser_navigate W url t)
    = t ++ [Import "playwright.sync_api"; PlaywrightStart] ++ steps
        ++ [PlaywrightStop] /\
    (exists n, steps = firstn n (page_script url)) /\
    (In BrowserClose steps -> steps = page_script url).
Proof.
  intros Himp Hstart.
  destruct (browser_navigate W url t) as [r t'] eqn:Hout.
  cbn [fst snd]. revert Hout.
  unfold browser_navigate, with_, Desktop.bind, Desktop.try_except, perform,
    Desktop.ret, ask.
  rewrite Himp, Hstart. clear Himp Hstart.
  repeat (case_raise; simpl); intros [= <- <-]; rewrite <- ?app_assoc; simpl;
    eexists;
    (split; [repeat f_equal;
             match goal with
             | |- ?l = ?steps ++ [PlaywrightStop] =>
                 instantiate (1 := removelast l); reflexivity
             end |]);
    simpl;
    (split; [page_prefix
            | intros Hin; simpl in Hin;
              first [reflexivity | intuition discriminate]]).
Qed.


End DesktopProperties.

(** * Properties of the process list *)

Section ProcessProperties.

Local Open Scope list_scope.
Import Processes.

Context {Mem : Type}.
Variables (mem_zero : Mem) (mem_falsy : Mem -> bool).
Variables (mem_ltb : Mem -> Mem -> bool) (fmt_1f : Mem -> string).

Local Abbreviation insert_desc := (insert_desc mem_zero mem_falsy mem_ltb).
Local Abbreviation sort_desc := (sort_desc mem_zero mem_falsy mem_ltb).
Local Abbreviation listed := (listed mem_zero mem_falsy mem_ltb).
Local Abbreviation not_less := (not_less mem_zero mem_falsy mem_ltb).
Local Abbreviation append_line := (append_line mem_zero mem_falsy fmt_1f).
Local Abbreviation list_processes :=
  (list_processes mem_zero mem_falsy mem_ltb fmt_1f).

Lemma collect_harmless (items : list (res (ProcInfo Mem))) :
  harmless items -> collect items = Val (readable items).
Proof.
  induction 1 as [| [info | e] items Hitem _ IH]; cbn [collect readable].
  - reflexivity.
  - now rewrite IH.
  - now rewrite Hitem.
Qed.

Lemma insert_desc_perm p (l : list (ProcInfo Mem)) :
  Permutation (p :: l) (insert_desc p l).
Proof.
  induction l as [| q l IH]; cbn [Processes.insert_desc]; [reflexivity |].
  destruct (mem_ltb _ _); [| reflexivity].
  rewrite perm_swap. now apply perm_skip.
Qed.

Lemma sort_desc_perm (l : list (ProcInfo Mem)) : Permutation l (sort_desc l).
Proof.
  induction l as [| p l IH]; [reflexivity |].
  cbn [Processes.sort_desc fold_right].
  rewrite <- insert_desc_perm. now apply perm_skip.
Qed.

Lemma sort_desc_length (l : list (ProcInfo Mem)) :
  length (sort_desc l) = length l.
Proof. symmetry. apply Permutation_length, sort_desc_perm. Qed.

Section Ordered.

(** The comparison of two memory shares is that of an order. *)
Hypothesis ltb_asym :
  forall a b, mem_ltb a b = true -> mem_ltb b a = false.
Hypothesis not_less_trans :
  forall a b c, mem_ltb a b = false -> mem_ltb b c = false ->
                mem_ltb a c = false.

Lemma insert_desc_sorted p (l : list (ProcInfo Mem)) :
  StronglySorted not_less l -> StronglySorted not_less (insert_desc p l).
Proof.
  induction 1 as [| q l Hsorted IH Hq]; cbn [Processes.insert_desc].
  - repeat constructor.
  - destruct (mem_ltb (or_zero mem_zero mem_falsy p)
                      (or_zero mem_zero mem_falsy q)) eqn:Hpq.
    + constructor; [exact IH |].
      eapply Permutation_Forall; [apply insert_desc_perm |].
      constructor; [| exact Hq].
      unfold Processes.not_less. now apply ltb_asym.
    + constructor; [now constructor |].
      constructor; [exact Hpq |].
      eapply List.Forall_impl; [| exact Hq].
      intros x Hx. unfold Processes.not_less in *.
      eapply not_less_trans; eassumption.
Qed.

Lemma sort_desc_sorted (l : list (ProcInfo Mem)) :
  StronglySorted not_less (sort_desc l).
Proof.
  induction l as [| p l IH]; [constructor |].
  cbn [Processes.sort_desc fold_right]. now apply insert_desc_sorted.
Qed.

(** X21.  When the processes raise nothing but the three classes that
    are caught, [list_processes] lists processes that could be read,
    those that could not being left out without a word.  The listed
    ones are the first of the readable processes in descending order of
    memory: none of them uses less memory than the one on the next
    line, or than any process that is not listed. *)
Theorem list_processes_top W limit items :
  import_psutil W = None ->
  process_iter W = Val items ->
  harmless items ->
  list_processes W limit
  = Val (fold_left append_line (listed (readable items) limit) header) /\
  exists others,
    Permutation (readable items) (listed (readable items) limit ++ others) /\
    StronglySorted not_less (listed (readable items) limit ++ others).
Proof.
  intros Himp Hiter Hitems.
  split.
  - unfold Processes.list_processes.
    now rewrite Himp, Hiter, (collect_harmless items Hitems).
  - unfold Processes.listed, py_slice_to.
    destruct (0 <=? limit)%Z;
      match goal with
      | |- context [firstn ?k _] =>
          exists (skipn k (sort_desc (readable items)))
      end;
      rewrite firstn_skipn; split;
      first [apply sort_desc_perm | apply sort_desc_sorted].
Qed.

End Ordered.

(** X22.  How many processes get a line.  A limit of zero or more lists
    that many processes, or all of them if there are fewer.  A negative
    limit is not refused: it leaves out that many processes from the
    end of the ranking and lists the rest. *)
Theorem listed_count (procs : list (ProcInfo Mem)) limit :
  length (listed procs limit)
  = if (0 <=? limit)%Z
    then Nat.min (Z.to_nat limit) (length procs)
    else length procs - Z.to_nat (- limit).
Proof.
  unfold Processes.listed, py_slice_to.
  destruct (0 <=? limit)%Z eqn:Hsign;
    rewrite length_firstn, sort_desc_length; [reflexivity |].
  apply Z.leb_gt in Hsign. lia.
Qed.

(** X23.  [list_processes] has no handler of its own: the first process
    that raises an exception of another class than the three that are
    skipped ends the call with that exception, and nothing is listed. *)
Theorem list_processes_propagates W limit before e after :
  import_psutil W = None ->
  process_iter W = Val (before ++ Raise e :: after) ->
  harmless before ->
  skipped e = false ->
  list_processes W limit = Raise e.
Proof.
  intros Himp Hiter Hbefore He.
  unfold Processes.list_processes. rewrite Himp, Hiter.
  assert (Hcollect : collect (before ++ Raise e :: after) = Raise e).
  { clear Hiter. induction Hbefore as [| [info | e'] items Hitem _ IH];
      cbn [app collect].
    - now rewrite He.
    - now rewrite IH.
    - now rewrite Hitem. }
  now rewrite Hcollect.
Qed.

End ProcessProperties.

(** * The further properties at work on the sample machines *)

Section MoreRuns.

Local Open Scope list_scope.

(** A session that indexes [notes] between failed builds ends with the
    index of [notes]. *)
Lemma session_holds_last_successful_build_run :
  vector_store
    (snd (run_session
            (Sample.quiet_session
               ++ (Sample.world, IndexNotes "notes") :: late_session)
            initial_heap))
  = Some [Sample.readme].
Proof.
  assert (Hok : build_succeeded
                  (fst (index_notes Sample.world "notes"
                          (snd (run_session Sample.quiet_session initial_heap))))).
  { exists 1, "notes"%string. vm_compute. reflexivity. }
  assert (Hquiet : Forall (fun r => ~ build_succeeded r)
                     (fst (run_session late_session
                             (snd (index_notes Sample.world "notes"
                                     (snd (run_session Sample.quiet_session
                                             initial_heap))))))).
  { vm_compute. repeat constructor; intros (n & d & H); discriminate H. }
  destruct (session_holds_last_successful_build Sample.quiet_session
              late_session Sample.world "notes" initial_heap Hok Hquiet)
    as (docs & emb & st & _ & _ & _ & _ & _).
  vm_compute. reflexivity.
Defined.

Lemma volume_control_presses_run :
  snd (Desktop.volume_control Desktop.calm "up" 3 [])
  = [ Desktop.Import "pywinauto.keyboard"; Desktop.SendKeys "{VOLUME_UP}";
      Desktop.SendKeys "{VOLUME_UP}"; Desktop.SendKeys "{VOLUME_UP}" ].
Proof.
  destruct (volume_control_presses Desktop.calm "up" 3 [] eq_refl)
    as (key & Hkey & Htrace).
  injection Hkey as <-. exact Htrace.
Defined.

Lemma volume_control_interrupted_run :
  Desktop.volume_control Desktop.sticky "up" 5 []
  = (Val "Failed to execute volume action 'up': input blocked"%string,
     [ Desktop.Import "pywinauto.keyboard"; Desktop.SendKeys "{VOLUME_UP}";
       Desktop.SendKeys "{VOLUME_UP}"; Desktop.SendKeys "{VOLUME_UP}" ]).
Proof.
  refine (volume_control_interrupted Desktop.sticky "up" 5 [] "{VOLUME_UP}" 2
            {| exc_type := "RuntimeError"; exc_str := "input blocked" |}
            eq_refl eq_refl _ _ eq_refl).
  - vm_compute. lia.
  - intros [| [| i]] Hi; [reflexivity | reflexivity | lia].
Defined.

Lemma volume_control_edge_inputs_run :
  Desktop.volume_control Desktop.calm "down" (-2) []
  = (Val "Volume down by -2 steps"%string,
     [Desktop.Import "pywinauto.keyboard"]).
Proof.
  refine (proj1 (volume_control_edge_inputs Desktop.calm "down" (-2) [] eq_refl)
            "{VOLUME_DOWN}"%string eq_refl _).
  lia.
Defined.

Lemma media_control_keys_run :
  Desktop.media_control Desktop.calm "next" []
  = (Val "Executed media action: next"%string,
     [Desktop.Import "pywinauto.keyboard"; Desktop.SendKeys "{MEDIA_NEXT_TRACK}"])
  /\ Desktop.media_control Desktop.calm "pause" []
     = (Val "Unknown media action: pause"%string,
        [Desktop.Import "pywinauto.keyboard"]).
Proof.
  destruct (media_control_keys Desktop.calm "next" [] eq_refl) as [Hknown _].
  destruct (media_control_keys Desktop.calm "pause" [] eq_refl) as [_ Hunknown].
  split.
  - refine (Hknown "{MEDIA_NEXT_TRACK}"%string _). vm_compute. auto.
  - apply Hunknown. vm_compute. intuition discriminate.
Defined.


Lemma focus_window_ignores_case_run :
  snd (Desktop.focus_window Desktop.calm "NOTEPAD" [])
  = snd (Desktop.focus_window Desktop.calm "notepad" []).
Proof.
  exact (focus_window_ignores_case Desktop.calm "NOTEPAD" "notepad" [] eq_refl).
Defined.

Lemma focus_window_empty_text_run :
  Desktop.focus_window Desktop.calm "" []
  = (Val "Successfully focused: 'Untitled - Notepad'"%string,
     [Desktop.NewDesktop; Desktop.ListWindows; Desktop.SetFocus 1]).
Proof.
  exact (focus_window_empty_text Desktop.calm []
           {| Desktop.handle := 1; Desktop.window_text := "Untitled - Notepad";
              Desktop.get_show_state := 1 |}
           (tl Desktop.sample_windows)
           (fun _ _ => eq_refl) eq_refl).
Defined.

Lemma search_query_injective_run :
  Desktop.search_query "hey jude" = Desktop.search_query "hey jude"
  /\ "hey jude"%string = "hey jude"%string.
Proof.
  split; [reflexivity |].
  exact (search_query_injective "hey jude" "hey jude" eq_refl eq_refl eq_refl).
Defined.

Lemma browser_navigate_cleanup_run :
  exists steps,
    snd (Desktop.browser_navigate Desktop.calm "http://example.org" [])
    = [Desktop.Import "playwright.sync_api"; Desktop.PlaywrightStart]
        ++ steps ++ [Desktop.PlaywrightStop] /\
    (In Desktop.BrowserClose steps ->
     steps = Desktop.page_script "http://example.org").
Proof.
  destruct (browser_navigate_cleanup Desktop.calm "http://example.org" []
              eq_refl eq_refl) as (steps & Hrun & _ & Hclose).
  exists steps. split; [exact Hrun | exact Hclose].
Defined.


Lemma nat_ltb_asym : forall a b, Nat.ltb a b = true -> Nat.ltb b a = false.
Proof. intros a b H. apply Nat.ltb_lt in H. apply Nat.ltb_ge. lia. Defined.

Lemma nat_not_less_trans :
  forall a b c, Nat.ltb a b = false -> Nat.ltb b c = false -> Nat.ltb a c = false.
Proof.
  intros a b c H1 H2. apply Nat.ltb_ge in H1, H2. apply Nat.ltb_ge. lia.
Defined.

Lemma sample_items_harmless : Processes.harmless Processes.sample_items.
Proof. repeat constructor. Defined.

Lemma list_processes_top_run :
  Processes.sample_list 2
  = Val (fold_left (Processes.append_line 0 (Nat.eqb 0) Processes.tenths)
           (Processes.listed 0 (Nat.eqb 0) Nat.ltb
              (Processes.readable Processes.sample_items) 2)
           Processes.header).
Proof.
  exact (proj1 (list_processes_top 0 (Nat.eqb 0) Nat.ltb Processes.tenths
                  nat_ltb_asym nat_not_less_trans Processes.sample 2
                  Processes.sample_items eq_refl eq_refl
                  sample_items_harmless)).
Defined.

Lemma list_processes_propagates_run :
  Processes.list_processes 0 (Nat.eqb 0) Nat.ltb Processes.tenths
    Processes.broken 10
  = Raise {| exc_type := "OSError"; exc_str := "no /proc" |}.
Proof.
  exact (list_processes_propagates 0 (Nat.eqb 0) Nat.ltb Processes.tenths
           Processes.broken 10 Processes.sample_items
           {| exc_type := "OSError"; exc_str := "no /proc" |}
           Processes.sample_items eq_refl eq_refl sample_items_harmless
           eq_refl).
Defined.

End MoreRuns.
